(** * Auto-start plugin of interact.js: admission, resolution, cursor

    A shallow embedding of [src/packages/auto-start/base.ts] and the
    properties its specification states about it.

    Conventions of the embedding.
    - A JavaScript [number] is a value of [Num]: a rational, one of the two
      infinities, or NaN.  Every finite IEEE double is a rational, and the only
      operations the plugin applies to numbers (truthiness, [>=] against an
      integer counter, [> 0]) are exact on them.
    - A nullable reference is an [option]; objects compared with [===] are
      represented by their identity ([Element], [InteractableRef],
      [SessionRef] are identities; the objects live in the [Scope]).
    - A call that would raise a [TypeError] (a property read on [undefined]
      or [null]) returns [None]. *)

From Stdlib Require Import QArith Lia Lqa.
From stdpp Require Import base option list gmap strings.

Close Scope Q_scope.

(** ** JavaScript numbers *)

Inductive Num : Type :=
| NaN
| NegInfinity
| Finite (q : Q)
| Infinity.

(** [!!n] for a number: [0], [-0] and [NaN] are falsy. *)
Definition num_truthy (n : Num) : bool :=
  match n with
  | NaN => false
  | Finite q => negb (Qeq_bool q 0)
  | NegInfinity | Infinity => true
  end.

(** [count >= cap] where [count] is one of the loop's integer counters. *)
Definition count_ge (count : nat) (cap : Num) : bool :=
  match cap with
  | NaN => false
  | NegInfinity => true
  | Finite q => Qle_bool q (inject_Z (Z.of_nat count))
  | Infinity => false
  end.

(** [n > 0]. *)
Definition num_gt0 (n : Num) : bool :=
  match n with
  | NaN | NegInfinity => false
  | Finite q => negb (Qle_bool q 0)
  | Infinity => true
  end.

(** [n <= 0] as a proposition (false for NaN, as every comparison is). *)
Definition num_le0 (n : Num) : Prop :=
  match n with
  | NaN | Infinity => False
  | NegInfinity => True
  | Finite q => (q <= 0)%Q
  end.

(** [n < 0]. *)
Definition num_lt0 (n : Num) : Prop :=
  match n with
  | NaN | Infinity => False
  | NegInfinity => True
  | Finite q => (q < 0)%Q
  end.

(** [n == 0]. *)
Definition num_is0 (n : Num) : Prop :=
  match n with
  | Finite q => (q == 0)%Q
  | _ => False
  end.

(** The number [k] for a natural [k]. *)
Definition num_of_nat (k : nat) : Num := Finite (inject_Z (Z.of_nat k)).
Arguments num_of_nat : simpl never.

(** A value of type [any], as far as [utils.is.number] tells them apart
    ([utils.is.number] is not part of this file; it holds of the values whose
    [typeof] is ['number'], NaN and the infinities included). *)
Inductive JsValue : Type :=
| VNumber (n : Num)
| VOther (repr : string).

(** ** Data model *)

Definition Element := nat.
Definition InteractableRef := nat.
Definition SessionRef := nat.
Definition Pointer := nat.
Definition PointerEvent := nat.

(** A DOM node together with its parent chain: [utils.is.element] holds of
    [Elem] nodes only, and [utils.dom.parentNode] of [Elem e p] is [p]. *)
Inductive Node : Type :=
| NotAnElement
| Elem (e : Element) (parent : Node).

Definition is_element (n : Node) : bool :=
  match n with NotAnElement => false | Elem _ _ => true end.

Definition parentNode (n : Node) : Node :=
  match n with NotAnElement => NotAnElement | Elem _ p => p end.

Record Rect : Type := mkRect { r_left : Z; r_top : Z; r_width : Z; r_height : Z }.

(** [Interact.ActionProps]: the action name and its geometry hints. *)
Record ActionProps : Type := mkAction {
  name : option string;
  hints : option string;
}.

(** A string is truthy when it is not empty; [null] is falsy. *)
Definition name_truthy (n : option string) : bool :=
  match n with
  | Some s => negb (String.eqb s "")
  | None => false
  end.

(** [a === b] on action names. *)
Definition name_eqb (a b : option string) : bool := bool_decide (a = b).

(** The property key [obj[n]] reads: [null] is converted to the string "null". *)
Definition prop_key (n : option string) : string := default "null" n.

Record PerActionOptions : Type := mkPerAction {
  enabled : bool;
  manualStart : bool;
  max : Num;
  maxPerElement : Num;
  cursorChecker :
    option (ActionProps -> InteractableRef -> option Element -> bool -> string);
}.

(** [defaults.perAction] after [install] (lines 65-75). *)
Definition perAction_defaults (on : bool) : PerActionOptions :=
  {| enabled := on; manualStart := false; max := Infinity;
     maxPerElement := Finite 1; cursorChecker := None |}.

(** [Interact.Interaction], the fields the plugin reads and writes. *)
Record Session : Type := mkSession {
  pointerType : string;
  pointerIsDown : bool;
  pointerWasMoved : bool;
  _interacting : bool;
  prepared : ActionProps;
  interactable : option InteractableRef;
  element : option Element;
  rect : option Rect;
}.

(** [interaction.interacting()]. *)
Definition interacting (s : Session) : bool := _interacting s.

(** [Interact.Interactable]: option bag and the methods the plugin calls. *)
Record Interactable : Type := mkInteractable {
  options : gmap string PerActionOptions;
  styleCursor : bool;
  getAction :
    Pointer -> PointerEvent -> Session -> option Element -> option ActionProps;
  testIgnoreAllow : option PerActionOptions -> option Element -> Node -> bool;
  getRect : option Element -> option Rect;
}.

Module AutoStart.
(** [scope.autoStart] (lines 36-42, 90-96). *)
Record t : Type := mk {
  maxInteractions : Num;
  cursorElement : option Element;
}.
End AutoStart.

(** Names of the signals the plugin fires, with the session they carry. *)
Inductive Signal : Type :=
| BeforeStart (i : SessionRef)
| Prepared (i : SessionRef).

(** The state the functions of the plugin receive through [scope], bundled
    with the part of the DOM they touch ([style.cursor] of every element and
    the document element of its owner document). *)
Record Scope : Type := mkScope {
  autoStart : AutoStart.t;
  interactions_list : list Session;
  interactables_get : InteractableRef -> Interactable;
  forEachMatch : Element -> list InteractableRef;
  actions_getCursor : gmap string (ActionProps -> string);
  signals_fired : list Signal;
  style_cursor : gmap Element string;
  documentElement : Element -> Element;
}.

(** [scope.autoStart] as [install] leaves it, on a page without overrides. *)
Definition install_autoStart : AutoStart.t :=
  {| AutoStart.maxInteractions := Infinity; AutoStart.cursorElement := None |}.

(** ** withinInteractionLimit (lines 268-309) *)

Record Counters : Type := mkCounters {
  activeInteractions : nat;
  interactableCount : nat;
  elementCount : nat;
}.

Inductive LoopResult : Type :=
| Return (b : bool)
| Continue (c : Counters).

Section Limit.
Variables (target : InteractableRef) (el : option Element)
          (action : ActionProps).
Variables (maxActions maxPerEl autoStartMax : Num).

(** One iteration of the [for ... of scope.interactions.list] loop. *)
Definition loop_body (c : Counters) (interaction : Session) : LoopResult :=
  let otherAction := name (prepared interaction) in
  if negb (interacting interaction) then Continue c else
  let active := S (activeInteractions c) in
  if count_ge active autoStartMax then Return false else
  if negb (bool_decide (interactable interaction = Some target))
  then Continue (mkCounters active (interactableCount c) (elementCount c))
  else
    let icount :=
      interactableCount c + (if name_eqb otherAction (name action) then 1 else 0) in
    if count_ge icount maxActions then Return false else
    if bool_decide (element interaction = el) then
      let ecount := S (elementCount c) in
      if name_eqb otherAction (name action) && count_ge ecount maxPerEl
      then Return false
      else Continue (mkCounters active icount ecount)
    else Continue (mkCounters active icount (elementCount c)).

Fixpoint loop (c : Counters) (l : list Session) : LoopResult :=
  match l with
  | [] => Continue c
  | interaction :: rest =>
      match loop_body c interaction with
      | Return b => Return b
      | Continue c' => loop c' rest
      end
  end.
End Limit.

Definition zero_counters : Counters := mkCounters 0 0 0.

Definition withinInteractionLimit
    (target : InteractableRef) (el : option Element) (action : ActionProps)
    (scope : Scope) : option bool :=
  match options (interactables_get scope target) !! prop_key (name action) with
  | None => None
  | Some o =>
      let maxActions := max o in
      let maxPerEl := maxPerElement o in
      let autoStartMax := AutoStart.maxInteractions (autoStart scope) in
      if negb (num_truthy maxActions && num_truthy maxPerEl
               && num_truthy autoStartMax)
      then Some false
      else
        match loop target el action maxActions maxPerEl autoStartMax
                   zero_counters (interactions_list scope) with
        | Return b => Some b
        | Continue _ => Some (num_gt0 autoStartMax)
        end
  end.

(** ** Updating one field of the scope or of a session *)

Definition with_autoStart (a : AutoStart.t) (scope : Scope) : Scope :=
  mkScope a (interactions_list scope) (interactables_get scope)
          (forEachMatch scope) (actions_getCursor scope) (signals_fired scope)
          (style_cursor scope) (documentElement scope).

Definition with_interactions (l : list Session) (scope : Scope) : Scope :=
  mkScope (autoStart scope) l (interactables_get scope)
          (forEachMatch scope) (actions_getCursor scope) (signals_fired scope)
          (style_cursor scope) (documentElement scope).

Definition with_style (st : gmap Element string) (scope : Scope) : Scope :=
  mkScope (autoStart scope) (interactions_list scope) (interactables_get scope)
          (forEachMatch scope) (actions_getCursor scope) (signals_fired scope)
          st (documentElement scope).

(** [scope.signals.fire(...)]: no other plugin listens, the call is logged. *)
Definition fire (sig : Signal) (scope : Scope) : Scope :=
  mkScope (autoStart scope) (interactions_list scope) (interactables_get scope)
          (forEachMatch scope) (actions_getCursor scope)
          (signals_fired scope ++ [sig])
          (style_cursor scope) (documentElement scope).

(** [element.style.cursor], the empty string when never assigned. *)
Definition cursor_of (scope : Scope) (e : Element) : string :=
  default "" (style_cursor scope !! e).

Definition string_truthy (s : string) : bool := negb (String.eqb s "").

Notation "'let?' x ':=' e 'in' k" :=
  (match e with Some x => k | None => None end)
  (at level 10, x pattern, e at level 100, k at level 200, only parsing).

(** ** setCursor (lines 321-329) *)

Definition setCursor (elem : option Element) (cursor : string) (scope : Scope)
    : option Scope :=
  match elem with
  | None => None
  | Some e =>
      let st0 := style_cursor scope in
      let st1 :=
        match AutoStart.cursorElement (autoStart scope) with
        | Some previous => <[previous := ""]> st0
        | None => st0
        end in
      let st2 := <[documentElement scope e := cursor]> st1 in
      let st3 := <[e := cursor]> st2 in
      Some (with_autoStart
              (AutoStart.mk (AutoStart.maxInteractions (autoStart scope))
                            (if string_truthy cursor then Some e else None))
              (with_style st3 scope))
  end.

(** ** setInteractionCursor (lines 331-352) *)

Definition setInteractionCursor (i : SessionRef) (scope : Scope) : option Scope :=
  let? interaction := interactions_list scope !! i in
  match interactable interaction with
  | Some t =>
      let target := interactables_get scope t in
      if negb (String.eqb (pointerType interaction) "mouse" && styleCursor target)
      then Some scope
      else
        let p := prepared interaction in
        let? cursor :=
          (if name_truthy (name p) then
             let? o := options target !! prop_key (name p) in
             match cursorChecker o with
             | Some checker =>
                 Some (checker p t (element interaction) (_interacting interaction))
             | None =>
                 let? getCursor := actions_getCursor scope !! prop_key (name p) in
                 Some (getCursor p)
             end
           else Some "") in
        setCursor (element interaction) cursor scope
  | None => Some scope
  end.

(** ** clearCursorOnStop (lines 142-148) *)

Definition clearCursorOnStop (i : SessionRef) (scope : Scope) : option Scope :=
  let? interaction := interactions_list scope !! i in
  match interactable interaction with
  | Some t =>
      if styleCursor (interactables_get scope t)
      then setCursor (element interaction) "" scope
      else Some scope
  | None => Some scope
  end.

(** ** validateAction (lines 152-166) *)

Definition validateAction
    (action : ActionProps) (target : InteractableRef) (el : option Element)
    (eventTarget : Node) (scope : Scope) : option (option ActionProps) :=
  let t := interactables_get scope target in
  let opts := options t !! prop_key (name action) in
  if testIgnoreAllow t opts el eventTarget then
    let? o := opts in
    if enabled o then
      let? within := withinInteractionLimit target el action scope in
      Some (if within then Some action else None)
    else Some None
  else Some None.

(** ** validateMatches (lines 168-201) *)

Module ActionInfo.
Record t : Type := mk {
  action : option ActionProps;
  interactable : option InteractableRef;
  element : option Element;
}.
(** [{ action: null, interactable: null, element: null }]. *)
Definition none : t := mk None None None.
End ActionInfo.

Section Resolve.
Variables (interaction : Session) (pointer : Pointer) (event : PointerEvent).
Variables (eventTarget : Node) (scope : Scope).

(** The [for] loop from index [i] on; [rest] is [matches] from [i]. *)
Fixpoint validateMatches_from
    (matchElements : list Element) (rest : list InteractableRef) (i : nat)
    : option ActionInfo.t :=
  match rest with
  | [] => Some ActionInfo.none
  | match_ :: rest' =>
      let matchElement := matchElements !! i in
      match getAction (interactables_get scope match_)
                      pointer event interaction matchElement with
      | None => validateMatches_from matchElements rest' (S i)
      | Some matchAction =>
          let? validated :=
            validateAction matchAction match_ matchElement eventTarget scope in
          match validated with
          | Some action =>
              Some (ActionInfo.mk (Some action) (Some match_) matchElement)
          | None => validateMatches_from matchElements rest' (S i)
          end
      end
  end.

Definition validateMatches
    (matches : list InteractableRef) (matchElements : list Element)
    : option ActionInfo.t :=
  validateMatches_from matchElements matches 0.

(** [actionInfo.action &&
     !actionInfo.interactable.options[actionInfo.action.name].manualStart]. *)
Definition auto_startable (info : ActionInfo.t) : option bool :=
  match ActionInfo.action info with
  | None => Some false
  | Some a =>
      let? t := ActionInfo.interactable info in
      let? o := options (interactables_get scope t) !! prop_key (name a) in
      Some (negb (manualStart o))
  end.

(** ** getActionInfo (lines 203-237): the [while] loop from [node] on. *)
Fixpoint getActionInfo_from (node : Node) : option ActionInfo.t :=
  match node with
  | NotAnElement => Some ActionInfo.none
  | Elem e parent =>
      let matches := forEachMatch scope e in
      let matchElements := (fun _ => e) <$> matches in
      let? actionInfo := validateMatches matches matchElements in
      let? found := auto_startable actionInfo in
      if found then Some actionInfo else getActionInfo_from parent
  end.

Definition getActionInfo : option ActionInfo.t :=
  getActionInfo_from eventTarget.
End Resolve.

(** ** Sessions in the live list

    The session a notification is about is one of the objects of
    [scope.interactions.list]; it is named by its position there, so that a
    write to it is seen by every later scan of the list. *)

Definition with_session (i : SessionRef) (s : Session) (scope : Scope) : Scope :=
  with_interactions (<[i := s]> (interactions_list scope)) scope.

(** Modelled from the spec: [utils.copyAction] is not part of this file; the
    session "records the action", that is its name and geometry hints are
    copied into [interaction.prepared]. *)
Definition copyAction (dest src : ActionProps) : ActionProps :=
  mkAction (name src) (hints src).

(** Modelled from the spec: [interaction.start] belongs to the session
    runtime; it "applies the action" for the given target and element and
    takes the session to the active state. *)
Definition interaction_start
    (i : SessionRef) (action : ActionProps) (target : InteractableRef)
    (el : option Element) (scope : Scope) : option Scope :=
  let? s := interactions_list scope !! i in
  Some (with_session i
          (mkSession (pointerType s) (pointerIsDown s) (pointerWasMoved s) true
                     (copyAction (prepared s) action) (Some target) el (rect s))
          scope).

Module SignalArg.
(** The payload of the pointer notifications. *)
Record t : Type := mk {
  interaction : SessionRef;
  pointer : Pointer;
  event : PointerEvent;
  eventTarget : Node;
}.
End SignalArg.

(** ** prepare (lines 239-266) *)

Definition prepare (i : SessionRef) (info : ActionInfo.t) (scope : Scope)
    : option Scope :=
  let? interaction := interactions_list scope !! i in
  let action := default (mkAction None None) (ActionInfo.action info) in
  let? scope1 :=
    (match interactable interaction with
     | Some previous =>
         if styleCursor (interactables_get scope previous)
         then setCursor (element interaction) "" scope
         else Some scope
     | None => Some scope
     end) in
  let rect' :=
    match ActionInfo.interactable info with
    | Some t =>
        if name_truthy (name action)
        then getRect (interactables_get scope t) (ActionInfo.element info)
        else None
    | None => None
    end in
  let interaction' :=
    mkSession (pointerType interaction) (pointerIsDown interaction)
              (pointerWasMoved interaction) (_interacting interaction)
              (copyAction (prepared interaction) action)
              (ActionInfo.interactable info) (ActionInfo.element info) rect' in
  let? scope2 := setInteractionCursor i (with_session i interaction' scope1) in
  Some (fire (Prepared i) scope2).

(** ** prepareOnDown (lines 99-104) *)

Definition prepareOnDown (arg : SignalArg.t) (scope : Scope) : option Scope :=
  let i := SignalArg.interaction arg in
  let? interaction := interactions_list scope !! i in
  if interacting interaction then Some scope else
  let? actionInfo :=
    getActionInfo interaction (SignalArg.pointer arg) (SignalArg.event arg)
                  (SignalArg.eventTarget arg) scope in
  prepare i actionInfo scope.

(** ** prepareOnMove (lines 106-113) *)

Definition prepareOnMove (arg : SignalArg.t) (scope : Scope) : option Scope :=
  let i := SignalArg.interaction arg in
  let? interaction := interactions_list scope !! i in
  if negb (String.eqb (pointerType interaction) "mouse")
     || pointerIsDown interaction
     || interacting interaction
  then Some scope else
  let? actionInfo :=
    getActionInfo interaction (SignalArg.pointer arg) (SignalArg.event arg)
                  (SignalArg.eventTarget arg) scope in
  prepare i actionInfo scope.

(** Modelled from the spec: [interaction.stop] belongs to the session
    runtime; stopping "always routes through the stop notification and the
    cursor-clear cleanup path" and takes the session "back to idle, releasing
    any held target". *)
Definition interaction_stop (i : SessionRef) (scope : Scope) : option Scope :=
  let? scope1 := clearCursorOnStop i scope in
  let? s := interactions_list scope1 !! i in
  Some (with_session i
          (mkSession (pointerType s) (pointerIsDown s) (pointerWasMoved s) false
                     (mkAction None (hints (prepared s))) None None (rect s))
          scope1).

(** ** startOnMove (lines 115-140) *)

Definition startOnMove (arg : SignalArg.t) (scope : Scope) : option Scope :=
  let i := SignalArg.interaction arg in
  let? interaction := interactions_list scope !! i in
  if negb (pointerIsDown interaction)
     || interacting interaction
     || negb (pointerWasMoved interaction)
     || negb (name_truthy (name (prepared interaction)))
  then Some scope else
  let scope1 := fire (BeforeStart i) scope in
  let? interaction := interactions_list scope1 !! i in
  match name_truthy (name (prepared interaction)), interactable interaction with
  | true, Some t =>
      let? o := options (interactables_get scope1 t)
                  !! prop_key (name (prepared interaction)) in
      if manualStart o then interaction_stop i scope1 else
      let? within :=
        withinInteractionLimit t (element interaction) (prepared interaction)
                               scope1 in
      if negb within then interaction_stop i scope1 else
      let? scope2 :=
        interaction_start i (prepared interaction) t (element interaction)
                          scope1 in
      setInteractionCursor i scope2
  | _, _ => Some scope1
  end.

(** The handler of ['interactions:move'] (lines 55-58). *)
Definition onMove (arg : SignalArg.t) (scope : Scope) : option Scope :=
  let? scope1 := prepareOnMove arg scope in
  startOnMove arg scope1.

(** ** maxInteractions (lines 311-319) *)

Inductive MaxInteractionsResult : Type :=
| ReturnsThis
| ReturnsCap (n : Num).

Definition maxInteractions (newValue : JsValue) (scope : Scope)
    : MaxInteractionsResult * Scope :=
  match newValue with
  | VNumber n =>
      (ReturnsThis,
       with_autoStart
         (AutoStart.mk n (AutoStart.cursorElement (autoStart scope))) scope)
  | VOther _ =>
      (ReturnsCap (AutoStart.maxInteractions (autoStart scope)), scope)
  end.

(** * Example data

    Small scopes on which the statements below are evaluated. *)

Definition drag : ActionProps := mkAction (Some "drag") None.
Definition resize : ActionProps := mkAction (Some "resize") None.

Definition options_with (cap capPerElement : Num) (manual : bool)
    : PerActionOptions :=
  mkPerAction true manual cap capPerElement None.

(** A target offering drag and resize under the same options, proposing
    [proposal] for every pointer. *)
Definition target_with
    (o : PerActionOptions) (style : bool) (proposal : option ActionProps)
    : Interactable :=
  mkInteractable (<["drag" := o]> (<["resize" := o]> ∅)) style
                 (fun _ _ _ _ => proposal) (fun _ _ _ => true) (fun _ => None).

Definition scope_with
    (cap : Num) (sessions : list Session)
    (targets : InteractableRef -> Interactable)
    (matching : Element -> list InteractableRef) : Scope :=
  mkScope (AutoStart.mk cap None) sessions targets matching
          (<["drag" := fun _ => "move"]> (<["resize" := fun _ => "nwse-resize"]> ∅))
          [] ∅ (fun _ => 0).

Definition active_session (t : InteractableRef) (e : Element) (a : ActionProps)
    : Session :=
  mkSession "mouse" true true true a (Some t) (Some e) None.

Definition idle_session (kind : string) : Session :=
  mkSession kind false false false (mkAction None None) None None None.

(** Negative caps with nothing active (C1). *)
Definition scope_negative_max : Scope :=
  scope_with Infinity []
             (fun _ => target_with (options_with (Finite (-1)) (Finite 1) false)
                                   true (Some drag))
             (fun _ => [7]).

Definition scope_negative_maxPerElement : Scope :=
  scope_with Infinity []
             (fun _ => target_with (options_with Infinity (Finite (-1)) false)
                                   true (Some drag))
             (fun _ => [7]).

(** ** Counting sessions *)

Definition count_sessions (p : Session -> bool) (l : list Session) : nat :=
  length (List.filter p l).

Definition same_target (target : InteractableRef) (s : Session) : bool :=
  bool_decide (interactable s = Some target).

Definition same_element (el : option Element) (s : Session) : bool :=
  bool_decide (element s = el).

Definition same_action (action : ActionProps) (s : Session) : bool :=
  name_eqb (name (prepared s)) (name action).

(** The number of active sessions. *)
Definition active_count (l : list Session) : nat :=
  count_sessions interacting l.

(** Active sessions on the target with the same action name. *)
Definition target_action_count
    (target : InteractableRef) (action : ActionProps) (l : list Session) : nat :=
  count_sessions
    (fun s => interacting s && same_target target s && same_action action s) l.

(** Active sessions on the target and the element, whatever their action. *)
Definition target_element_count
    (target : InteractableRef) (el : option Element) (l : list Session) : nat :=
  count_sessions
    (fun s => interacting s && same_target target s && same_element el s) l.

(** Active sessions on the target and the element with the same action name. *)
Definition target_element_action_count
    (target : InteractableRef) (el : option Element) (action : ActionProps)
    (l : list Session) : nat :=
  count_sessions
    (fun s => interacting s && same_target target s && same_element el s
              && same_action action s) l.


(** Two sessions on one element of one target, resizing and dragging, and a
    target allowing two drags per element (C2). *)
Definition scope_two_per_element : Scope :=
  scope_with Infinity [active_session 7 1 resize; active_session 7 1 drag]
             (fun _ => target_with (options_with Infinity (Finite 2) false)
                                   true (Some drag))
             (fun _ => [7]).


(** ** Resolution along the ancestor chain *)

(** The elements the [while] loop of [getActionInfo] visits from a node. *)
Fixpoint ancestors (n : Node) : list Element :=
  match n with
  | NotAnElement => []
  | Elem e parent => e :: ancestors parent
  end.

(** What [validateMatches] answers at one element of the chain. *)
Definition node_match
    (interaction : Session) (pointer : Pointer) (event : PointerEvent)
    (eventTarget : Node) (scope : Scope) (e : Element) : option ActionInfo.t :=
  validateMatches interaction pointer event eventTarget scope
                  (forEachMatch scope e) ((fun _ => e) <$> forEachMatch scope e).

(** A match whose action has [manualStart] set (or not). *)
Definition match_with_manualStart
    (scope : Scope) (manual : bool) (info : ActionInfo.t) : Prop :=
  exists a t o,
    ActionInfo.action info = Some a /\ ActionInfo.interactable info = Some t /\
    options (interactables_get scope t) !! prop_key (name a) = Some o /\
    manualStart o = manual.

(** A node yields nothing to return: no match, or a manual-start match. *)
Definition passed_over
    (interaction : Session) (pointer : Pointer) (event : PointerEvent)
    (eventTarget : Node) (scope : Scope) (e : Element) : Prop :=
  exists info,
    node_match interaction pointer event eventTarget scope e = Some info /\
    (ActionInfo.action info = None \/ match_with_manualStart scope true info).

(** The session of a scope after a step that may have failed. *)
Definition session_after (r : option Scope) (i : SessionRef) : option Session :=
  match r with
  | Some scope => interactions_list scope !! i
  | None => None
  end.

(** Element 1 (child) is matched by target 7, whose actions need a manual
    start; its parent, element 2, by target 8, which starts by itself (C3). *)
Definition targets_manual_child (t : InteractableRef) : Interactable :=
  if Nat.eqb t 7
  then target_with (options_with Infinity (Finite 1) true) true (Some drag)
  else target_with (options_with Infinity (Finite 1) false) true (Some drag).

Definition matching_child_parent (e : Element) : list InteractableRef :=
  if Nat.eqb e 1 then [7] else if Nat.eqb e 2 then [8] else [].

Definition scope_manual_child : Scope :=
  scope_with Infinity [idle_session "mouse"] targets_manual_child
             matching_child_parent.

Definition child_of_parent : Node := Elem 1 (Elem 2 NotAnElement).

(** A touch pointer hovering over element 2 of [scope_manual_child] (C6). *)
Definition scope_touch_hover : Scope :=
  scope_with Infinity [idle_session "touch"] targets_manual_child
             matching_child_parent.

Definition arg_over (n : Node) : SignalArg.t := SignalArg.mk 0 0 0 n.

(** ** Cursor presentation *)




(** The notifications the plugin subscribes to (lines 53-60) and the call of
    [interact.maxInteractions] (line 88). *)
Inductive Notification : Type :=
| Down (arg : SignalArg.t)
| Move (arg : SignalArg.t)
| Stop (i : SessionRef)
| SetMaxInteractions (newValue : JsValue).

Definition handle (n : Notification) (scope : Scope) : option Scope :=
  match n with
  | Down arg => prepareOnDown arg scope
  | Move arg => onMove arg scope
  | Stop i => clearCursorOnStop i scope
  | SetMaxInteractions v => Some (snd (maxInteractions v scope))
  end.

Fixpoint run (ns : list Notification) (scope : Scope) : option Scope :=
  match ns with
  | [] => Some scope
  | n :: rest =>
      match handle n scope with
      | Some scope' => run rest scope'
      | None => None
      end
  end.

(** The session [prepare] writes for a resolution result. *)
Definition prepared_session
    (scope : Scope) (s : Session) (info : ActionInfo.t) : Session :=
  let action := default (mkAction None None) (ActionInfo.action info) in
  mkSession (pointerType s) (pointerIsDown s) (pointerWasMoved s)
            (_interacting s) (copyAction (prepared s) action)
            (ActionInfo.interactable info) (ActionInfo.element info)
            (match ActionInfo.interactable info with
             | Some t =>
                 if name_truthy (name action)
                 then getRect (interactables_get scope t) (ActionInfo.element info)
                 else None
             | None => None
             end).

(** The first step of [prepare] and the body of [clearCursorOnStop]: clear the
    cursor of the session's target when that target styles cursors. *)
Definition clear_previous (s : Session) (scope : Scope) : option Scope :=
  match interactable s with
  | Some previous =>
      if styleCursor (interactables_get scope previous)
      then setCursor (element s) "" scope
      else Some scope
  | None => Some scope
  end.

(** The session holds a target, an element and the name of an action that
    passed [validateAction] in [scope] for the event target. *)
Definition validated_at (scope : Scope) (eventTarget : Node) (s : Session) : Prop :=
  exists a t e o,
    interactable s = Some t /\ element s = Some e /\
    name (prepared s) = name a /\
    validateAction a t (Some e) eventTarget scope = Some (Some a) /\
    options (interactables_get scope t) !! prop_key (name a) = Some o /\
    testIgnoreAllow (interactables_get scope t) (Some o) (Some e) eventTarget
      = true /\
    enabled o = true /\
    withinInteractionLimit t (Some e) a scope = Some true.

(** A session prepared on element 2 for the drag of target 8 (C10). *)
Definition scope_prepared_drag : Scope :=
  mkScope (AutoStart.mk Infinity (Some 2))
          [mkSession "mouse" false false false drag (Some 8) (Some 2)
                     (Some (mkRect 0 0 10 10))]
          targets_manual_child matching_child_parent
          (<["drag" := fun _ => "move"]> ∅)
          [] (<[2 := "move"]> (<[0 := "move"]> ∅)) (fun _ => 0).

(** A mouse session prepared on element 2 for the drag of target [t], the
    pointer down and moved (C7). *)
Definition ready_session (t : InteractableRef) : Session :=
  mkSession "mouse" true true false drag (Some t) (Some 2) None.

Definition scope_ready (t : InteractableRef) : Scope :=
  scope_with Infinity [ready_session t] targets_manual_child
             matching_child_parent.

(** Two pressed and moved mouse pointers over element 1, which two targets
    with the default options match (C2). *)
Definition pressed_session : Session :=
  mkSession "mouse" true true false (mkAction None None) None None None.

Definition scope_two_pointers : Scope :=
  scope_with Infinity [pressed_session; pressed_session]
             (fun _ => target_with (perAction_defaults true) true (Some drag))
             (fun e => if Nat.eqb e 1 then [7; 8] else []).

Definition arg_of (i : SessionRef) (n : Node) : SignalArg.t :=
  SignalArg.mk i i i n.


(** Element 1 matched first by target 7 (manual start), then by target 8. *)
Definition scope_manual_first : Scope :=
  scope_with Infinity [idle_session "mouse"] targets_manual_child
             (fun e => if Nat.eqb e 1 then [7; 8] else []).

(** * Further definitions

    Used by the properties of the second part. *)

(** Counters compared field by field. *)
Definition counters_le (c1 c2 : Counters) : Prop :=
  activeInteractions c1 <= activeInteractions c2 /\
  interactableCount c1 <= interactableCount c2 /\
  elementCount c1 <= elementCount c2.

(** Two active sessions, on elements 1 and 2 of target 7, both dragging. *)
Definition scope_two_drags : Scope :=
  scope_with Infinity [active_session 7 1 drag; active_session 7 2 drag]
             (fun _ => target_with (options_with (Finite 2) Infinity false)
                                   true (Some drag))
             (fun _ => [7]).

(** One active resize on element 1 of target 7, default options. *)
Definition scope_one_resize : Scope :=
  scope_with Infinity [active_session 7 1 resize; idle_session "mouse"]
             (fun _ => target_with (perAction_defaults true) true (Some drag))
             (fun _ => [7]).

(** Candidate [t], asked with element [e], proposes nothing, or what it
    proposes is not validated. *)
Definition candidate_rejected
    (interaction : Session) (pointer : Pointer) (event : PointerEvent)
    (eventTarget : Node) (scope : Scope)
    (t : InteractableRef) (e : option Element) : Prop :=
  getAction (interactables_get scope t) pointer event interaction e = None \/
  exists a,
    getAction (interactables_get scope t) pointer event interaction e = Some a /\
    validateAction a t e eventTarget scope = Some None.

(** Element 1 matched by targets 7 and 8 while target 7 is dragged there. *)
Definition scope_first_taken : Scope :=
  scope_with Infinity [active_session 7 1 drag; idle_session "mouse"]
             (fun _ => target_with (perAction_defaults true) true (Some drag))
             (fun _ => [7; 8]).

(** The session a notification is about. *)
Definition notification_session (n : Notification) : option SessionRef :=
  match n with
  | Down arg | Move arg => Some (SignalArg.interaction arg)
  | Stop i => Some i
  | SetMaxInteractions _ => None
  end.

(** [s'] is what [startOnMove] makes of [s] when it starts it in [scope]:
    the pointer was down and had moved, the prepared action of its target
    needs no manual start and was within the limits. *)
Definition started_from (scope : Scope) (s s' : Session) : Prop :=
  pointerIsDown s = true /\ pointerWasMoved s = true /\
  interacting s = false /\ name_truthy (name (prepared s)) = true /\
  exists t o,
    interactable s = Some t /\
    options (interactables_get scope t) !! prop_key (name (prepared s))
      = Some o /\
    manualStart o = false /\
    withinInteractionLimit t (element s) (prepared s) scope = Some true /\
    interacting s' = true /\ interactable s' = Some t /\
    element s' = element s /\ name (prepared s') = name (prepared s).

(** No two active sessions share target, element and action name. *)
Definition exclusive_per_element (l : list Session) : Prop :=
  forall i j si sj t,
    i <> j -> l !! i = Some si -> l !! j = Some sj ->
    interacting si = true -> interacting sj = true ->
    interactable si = Some t -> interactable sj = Some t ->
    element si = element sj ->
    name (prepared si) = name (prepared sj) -> False.

(** Every option bag of every target has [maxPerElement] at most 1. *)
Definition at_most_one_per_element (scope : Scope) : Prop :=
  forall t k o,
    options (interactables_get scope t) !! k = Some o ->
    count_ge 1 (maxPerElement o) = true.

(** No element has gained a glyph and no cursor element was newly recorded. *)
Definition no_new_glyph (scope scope' : Scope) : Prop :=
  (forall x, cursor_of scope' x = cursor_of scope x \/ cursor_of scope' x = "") /\
  (AutoStart.cursorElement (autoStart scope')
     = AutoStart.cursorElement (autoStart scope) \/
   AutoStart.cursorElement (autoStart scope') = None).

(** Two pressed and moved pointers over element 1 of the default target
    under a global cap of one. *)
Definition scope_cap_one : Scope :=
  scope_with (num_of_nat 1) [pressed_session; pressed_session]
             (fun _ => target_with (perAction_defaults true) true (Some drag))
             (fun e => if Nat.eqb e 1 then [7] else if Nat.eqb e 2 then [7] else []).

(** A pressed and moved touch pointer over element 1. *)
Definition scope_touch_pressed : Scope :=
  scope_with Infinity
             [mkSession "touch" true true false (mkAction None None)
                        None None None]
             (fun _ => target_with (perAction_defaults true) true (Some drag))
             (fun _ => [7]).


(** * Properties *)

(** ** Numbers *)

Lemma count_ge_mono (a b : nat) (cap : Num) :
  a <= b -> count_ge a cap = true -> count_ge b cap = true.
Proof.
  destruct cap as [| |q|]; simpl; try done.
  intros Hab H. apply Qle_bool_iff in H. apply Qle_bool_iff.
  eapply Qle_trans; [exact H|].
  rewrite <- Zle_Qle. lia.
Qed.

Lemma count_ge_negative (k : nat) (cap : Num) :
  num_lt0 cap -> count_ge k cap = true.
Proof.
  destruct cap as [| |q|]; simpl; try done.
  intros H. apply Qle_bool_iff.
  apply Qle_trans with (y := 0%Q); [by apply Qlt_le_weak|].
  change 0%Q with (inject_Z 0). rewrite <- Zle_Qle. lia.
Qed.

Lemma num_is0_falsy (n : Num) : num_is0 n -> num_truthy n = false.
Proof.
  destruct n as [| |q|]; simpl; try done.
  intros H. apply Qeq_bool_iff in H. by rewrite H.
Qed.

Lemma num_le0_not_gt0 (n : Num) : num_le0 n -> num_gt0 n = false.
Proof.
  destruct n as [| |q|]; simpl; try done.
  intros H. apply Qle_bool_iff in H. by rewrite H.
Qed.

Lemma count_ge_of_nat (k n : nat) :
  count_ge k (num_of_nat n) = bool_decide (n <= k).
Proof.
  unfold num_of_nat; simpl.
  destruct (Qle_bool _ _) eqn:E.
  - apply Qle_bool_iff in E. rewrite <- Zle_Qle in E.
    symmetry. apply bool_decide_eq_true. lia.
  - symmetry. apply bool_decide_eq_false. intros Hle.
    assert (Qle_bool (inject_Z (Z.of_nat n)) (inject_Z (Z.of_nat k)) = true) as E'.
    { apply Qle_bool_iff. rewrite <- Zle_Qle. lia. }
    congruence.
Qed.

Lemma num_of_nat_gt0 (n : nat) : num_gt0 (num_of_nat n) = bool_decide (0 < n).
Proof.
  unfold num_of_nat; simpl.
  destruct (Qle_bool _ _) eqn:E; simpl.
  - apply Qle_bool_iff in E. change 0%Q with (inject_Z 0) in E.
    rewrite <- Zle_Qle in E. symmetry. apply bool_decide_eq_false. lia.
  - symmetry. apply bool_decide_eq_true.
    destruct n; [|lia]. exfalso.
    assert (Qle_bool (inject_Z (Z.of_nat 0)) 0 = true) as E' by done.
    congruence.
Qed.

(** ** The admission loop *)

Section LimitFacts.
Variables (target : InteractableRef) (el : option Element)
          (action : ActionProps).
Variables (maxActions maxPerEl autoStartMax : Num).

Local Abbreviation body := (loop_body target el action maxActions maxPerEl autoStartMax).
Local Abbreviation scan := (loop target el action maxActions maxPerEl autoStartMax).

(** The loop only ever returns [false]. *)
Lemma loop_body_returns_false c s b : body c s = Return b -> b = false.
Proof.
  unfold loop_body. repeat case_match; intros; simplify_eq; done.
Qed.

Lemma loop_returns_false l : forall c b, scan c l = Return b -> b = false.
Proof.
  induction l as [|s l IH]; intros c b; simpl; [done|].
  destruct (body c s) eqn:E; [|by apply IH].
  intros; simplify_eq. by eapply loop_body_returns_false.
Qed.

(** A session at which every iteration returns makes the whole loop return. *)
Lemma loop_rejects_at s l :
  s ∈ l -> (forall c, body c s = Return false) ->
  forall c, scan c l = Return false.
Proof.
  intros Hin Hs. induction l as [|x l IH]; intros c; [by inversion Hin|].
  simpl. destruct (body c x) as [b|c'] eqn:E.
  - f_equal. by eapply loop_body_returns_false.
  - apply elem_of_cons in Hin as [->|Hin]; [|by apply IH].
    rewrite Hs in E. done.
Qed.

(** Sessions that are not interacting are skipped. *)
Lemma loop_body_idle c s : interacting s = false -> body c s = Continue c.
Proof. unfold loop_body. by intros ->. Qed.

Lemma loop_app l1 l2 c :
  scan c (l1 ++ l2) =
  match scan c l1 with
  | Return b => Return b
  | Continue c' => scan c' l2
  end.
Proof.
  revert c. induction l1 as [|s l1 IH]; intros c; simpl; [done|].
  destruct (body c s); [done|]. apply IH.
Qed.
End LimitFacts.

(** ** C1: degenerate caps *)

Lemma negative_max_rejects_at target el action maxActions maxPerEl cap s :
  num_lt0 maxActions -> interacting s = true ->
  interactable s = Some target ->
  forall c, loop_body target el action maxActions maxPerEl cap c s = Return false.
Proof.
  intros Hneg Hact Ht c. unfold loop_body. rewrite Hact, Ht. simpl.
  destruct (count_ge (S _) cap); [done|].
  rewrite bool_decide_eq_true_2 by done. simpl.
  by rewrite count_ge_negative.
Qed.

Lemma negative_maxPerElement_rejects_at
    target el action maxActions maxPerEl cap s :
  num_lt0 maxPerEl -> interacting s = true ->
  interactable s = Some target -> element s = el ->
  name (prepared s) = name action ->
  forall c, loop_body target el action maxActions maxPerEl cap c s = Return false.
Proof.
  intros Hneg Hact Ht He Hn c. unfold loop_body. rewrite Hact, Ht, He, Hn. simpl.
  destruct (count_ge (S _) cap); [done|].
  rewrite !bool_decide_eq_true_2 by done. simpl.
  destruct (count_ge _ maxActions); [done|].
  unfold name_eqb. rewrite bool_decide_eq_true_2 by done. simpl.
  by rewrite count_ge_negative.
Qed.

(** With nothing active and the three caps truthy, the answer is whether
    the global cap is positive. *)
Lemma within_nothing_active target el action scope o :
  options (interactables_get scope target) !! prop_key (name action) = Some o ->
  Forall (fun s => interacting s = false) (interactions_list scope) ->
  num_truthy (max o) = true -> num_truthy (maxPerElement o) = true ->
  num_truthy (AutoStart.maxInteractions (autoStart scope)) = true ->
  withinInteractionLimit target el action scope
  = Some (num_gt0 (AutoStart.maxInteractions (autoStart scope))).
Proof.
  intros Ho Hidle H1 H2 H3. unfold withinInteractionLimit.
  rewrite Ho, H1, H2, H3. cbn [andb negb].
  assert (forall c,
            loop target el action (max o) (maxPerElement o)
                 (AutoStart.maxInteractions (autoStart scope)) c
                 (interactions_list scope) = Continue c) as ->; [|done].
  induction Hidle as [|s l Hs _ IH]; intros c; simpl; [done|].
  by rewrite loop_body_idle.
Qed.

(** C1, as the code has it: with the option bag of the action present,
    [withinInteractionLimit] returns false whenever [max] or [maxPerElement]
    is 0 or the global cap is <= 0, whatever the sessions; a negative [max]
    rejects once the list holds an active session on the same target, and a
    negative [maxPerElement] once it holds an active session on the same
    target and element with the same action name. *)
Theorem C1_degenerate_caps target el action scope o :
  options (interactables_get scope target) !! prop_key (name action) = Some o ->
  (num_is0 (max o) \/ num_is0 (maxPerElement o) \/
   num_le0 (AutoStart.maxInteractions (autoStart scope)) ->
   withinInteractionLimit target el action scope = Some false) /\
  (num_lt0 (max o) ->
   (exists s, s ∈ interactions_list scope /\ interacting s = true /\
              interactable s = Some target) ->
   withinInteractionLimit target el action scope = Some false) /\
  (num_lt0 (maxPerElement o) ->
   (exists s, s ∈ interactions_list scope /\ interacting s = true /\
              interactable s = Some target /\ element s = el /\
              name (prepared s) = name action) ->
   withinInteractionLimit target el action scope = Some false).
Proof.
  intros Ho. unfold withinInteractionLimit. rewrite Ho.
  repeat split.
  - intros H.
    destruct (num_truthy (max o) && num_truthy (maxPerElement o)
              && num_truthy (AutoStart.maxInteractions (autoStart scope))) eqn:E;
      simpl; [|done].
    apply andb_prop in E as [E E3]. apply andb_prop in E as [E1 E2].
    destruct H as [H|[H|H]].
    + apply num_is0_falsy in H. congruence.
    + apply num_is0_falsy in H. congruence.
    + destruct (loop _ _ _ _ _ _ _ _) as [b|c] eqn:EL.
      * f_equal. by eapply loop_returns_false.
      * f_equal. by apply num_le0_not_gt0.
  - intros Hneg (s & Hin & Hact & Ht).
    destruct (negb _); [done|].
    rewrite (loop_rejects_at _ _ _ _ _ _ s); [done|done|].
    by apply negative_max_rejects_at.
  - intros Hneg (s & Hin & Hact & Ht & He & Hn).
    destruct (negb _); [done|].
    rewrite (loop_rejects_at _ _ _ _ _ _ s); [done|done|].
    by apply negative_maxPerElement_rejects_at.
Qed.

(** The global cap 0 rejects with no session at all. *)
Lemma C1_degenerate_caps_witness :
  options (interactables_get
             (scope_with (Finite 0) []
                (fun _ => target_with (perAction_defaults true) true None)
                (fun _ => [])) 7)
    !! prop_key (name drag) = Some (perAction_defaults true) /\
  withinInteractionLimit 7 (Some 1) drag
    (scope_with (Finite 0) []
       (fun _ => target_with (perAction_defaults true) true None)
       (fun _ => [])) = Some false.
Proof.
  split; [reflexivity|].
  apply (proj1 (C1_degenerate_caps 7 (Some 1) drag
                  (scope_with (Finite 0) []
                     (fun _ => target_with (perAction_defaults true) true None)
                     (fun _ => []))
                  (perAction_defaults true) eq_refl)).
  right; right. simpl. lra.
Defined.

(** C1 as stated fails: a negative [max], or a negative [maxPerElement],
    with a positive global cap and no active session is admitted. *)
Lemma C1_negative_cap_admitted :
  (exists o, options (interactables_get scope_negative_max 7) !! "drag" = Some o /\
             num_le0 (max o)) /\
  interactions_list scope_negative_max = [] /\
  withinInteractionLimit 7 (Some 1) drag scope_negative_max = Some true /\
  (exists o, options (interactables_get scope_negative_maxPerElement 7) !! "drag"
               = Some o /\ num_le0 (maxPerElement o)) /\
  interactions_list scope_negative_maxPerElement = [] /\
  withinInteractionLimit 7 (Some 1) drag scope_negative_maxPerElement = Some true.
Proof.
  repeat split.
  - eexists; split; [reflexivity|]. simpl. lra.
  - eexists; split; [reflexivity|]. simpl. lra.
Qed.

(** ** C2: the per-element counter *)

Section Counting.
Variables (target : InteractableRef) (el : option Element)
          (action : ActionProps).
Variables (maxActions maxPerEl autoStartMax : Num).

Local Abbreviation body :=
  (loop_body target el action maxActions maxPerEl autoStartMax).
Local Abbreviation scan :=
  (loop target el action maxActions maxPerEl autoStartMax).

Lemma count_sessions_cons p s l :
  count_sessions p (s :: l) = (if p s then 1 else 0) + count_sessions p l.
Proof. unfold count_sessions; simpl. by destruct (p s). Qed.

(** What one iteration adds to the three counters when it does not return. *)
Lemma loop_body_counters c s c' :
  body c s = Continue c' ->
  activeInteractions c' =
    activeInteractions c + (if interacting s then 1 else 0) /\
  interactableCount c' =
    interactableCount c +
    (if interacting s && same_target target s && same_action action s
     then 1 else 0) /\
  elementCount c' =
    elementCount c +
    (if interacting s && same_target target s && same_element el s
     then 1 else 0).
Proof.
  unfold loop_body, same_target, same_element, same_action.
  destruct (interacting s); simpl; [|intros [= <-]; lia].
  destruct (count_ge _ autoStartMax); [done|].
  destruct (bool_decide (interactable s = Some target)); simpl;
    [|intros [= <-]; simpl; lia].
  destruct (count_ge _ maxActions); [done|].
  destruct (bool_decide (element s = el)); simpl.
  - destruct (name_eqb _ _ && _) eqn:E; [done|].
    intros [= <-]; simpl. destruct (name_eqb _ _); lia.
  - intros [= <-]; simpl. destruct (name_eqb _ _); lia.
Qed.


(** A scan that does not return has not seen [maxPerEl] sessions on the
    target and element with the action name. *)
Lemma loop_continue_below l : forall c c' k,
  scan c l = Continue c' -> k <= elementCount c ->
  1 <= target_element_action_count target el action l ->
  count_ge (k + target_element_action_count target el action l) maxPerEl
    = false.
Proof.
  unfold target_element_action_count.
  induction l as [|s l IH]; intros c c' k; simpl.
  - unfold count_sessions; simpl. lia.
  - destruct (body c s) as [|c1] eqn:E; [done|]. intros H Hk.
    rewrite count_sessions_cons.
    pose proof (loop_body_counters _ _ _ E) as (_ & _ & E3).
    destruct (interacting s && same_target target s && same_element el s
              && same_action action s) eqn:Es.
    + intros _.
      apply andb_prop in Es as [Es Ea]. rewrite Es in E3.
      assert (count_ge (S (elementCount c)) maxPerEl = false) as Hlow.
      { revert E. unfold loop_body.
        apply andb_prop in Es as [Es Ee]. apply andb_prop in Es as [Ei Et].
        unfold same_target, same_element, same_action in *.
        rewrite Ei, Et, Ee, Ea. simpl.
        destruct (count_ge _ autoStartMax); [done|].
        destruct (count_ge _ maxActions); [done|].
        by destruct (count_ge _ maxPerEl). }
      destruct (count_sessions _ l) as [|n] eqn:En.
      * destruct (count_ge (k + (1 + 0)) maxPerEl) eqn:Eg; [|done].
        rewrite <- Hlow. symmetry.
        eapply count_ge_mono; [|exact Eg]. lia.
      * replace (k + (1 + S n)) with (S k + S n) by lia.
        eapply IH; [exact H|lia|lia].
    + intros Hn. eapply IH; [exact H|lia|]. simpl in Hn. lia.
Qed.

Lemma loop_rejects_per_element l :
  1 <= target_element_action_count target el action l ->
  count_ge (target_element_action_count target el action l) maxPerEl = true ->
  scan zero_counters l = Return false.
Proof.
  intros Hn Hge.
  destruct (scan zero_counters l) as [b|c'] eqn:E.
  - f_equal. by eapply loop_returns_false.
  - pose proof (loop_continue_below l zero_counters c' 0 E) as H.
    simpl in H. rewrite H in Hge; [done|lia|done].
Qed.
End Counting.

Lemma count_sessions_pos p l :
  (exists s, s ∈ l /\ p s = true) -> 1 <= count_sessions p l.
Proof.
  intros (s & Hin & Hp). induction l as [|x l IH]; [by inversion Hin|].
  rewrite count_sessions_cons.
  apply elem_of_cons in Hin as [->|Hin].
  - rewrite Hp. lia.
  - specialize (IH Hin). lia.
Qed.





(** The counter also counts sessions with another action name, unlike the
    counter of the target (line 293), so the answer depends on the order of
    the list: with two drags allowed per element, a drag is rejected after a
    resize and a drag, and accepted after a drag and a resize. *)
Example per_element_check_depends_on_order :
  withinInteractionLimit 7 (Some 1) drag
    (with_interactions [active_session 7 1 resize; active_session 7 1 drag]
                       scope_two_per_element) = Some false /\
  withinInteractionLimit 7 (Some 1) drag
    (with_interactions [active_session 7 1 drag; active_session 7 1 resize]
                       scope_two_per_element) = Some true.
Proof. split; reflexivity. Qed.

(** ** C4: the global cap *)

Lemma num_of_nat_truthy (n : nat) : 0 < n -> num_truthy (num_of_nat n) = true.
Proof.
  intros Hn. unfold num_of_nat; simpl.
  destruct (Qeq_bool _ _) eqn:E; [|done].
  apply Qeq_bool_iff in E. change 0%Q with (inject_Z 0) in E.
  apply (proj1 (inject_Z_injective _ _)) in E. lia.
Qed.

Section GlobalCap.
Variables (target : InteractableRef) (el : option Element)
          (action : ActionProps).
Variables (maxActions maxPerEl autoStartMax : Num).

Local Abbreviation body :=
  (loop_body target el action maxActions maxPerEl autoStartMax).
Local Abbreviation scan :=
  (loop target el action maxActions maxPerEl autoStartMax).

(** The first comparison of an iteration is the one with the global cap: an
    active session at which the running total reaches it returns at once. *)
Lemma loop_body_global_first c s :
  interacting s = true ->
  count_ge (S (activeInteractions c)) autoStartMax = true ->
  body c s = Return false.
Proof. intros Hact Hge. unfold loop_body. by rewrite Hact, Hge. Qed.

(** A scan that does not return has seen fewer active sessions than the cap. *)
Lemma loop_continue_below_global l : forall c c',
  scan c l = Continue c' -> 1 <= active_count l ->
  count_ge (activeInteractions c + active_count l) autoStartMax = false.
Proof.
  unfold active_count.
  induction l as [|s l IH]; intros c c'; simpl.
  - unfold count_sessions; simpl. lia.
  - destruct (body c s) as [|c1] eqn:E; [done|]. intros H.
    rewrite count_sessions_cons.
    pose proof (loop_body_counters _ _ _ _ _ _ _ _ _ E) as (E1 & _ & _).
    destruct (interacting s) eqn:Ei.
    + intros _.
      assert (count_ge (S (activeInteractions c)) autoStartMax = false) as Hlow.
      { destruct (count_ge _ autoStartMax) eqn:Eg; [|done].
        rewrite loop_body_global_first in E; done. }
      destruct (count_sessions _ l) as [|n] eqn:En.
      * by replace (activeInteractions c + (1 + 0))
          with (S (activeInteractions c)) by lia.
      * replace (activeInteractions c + (1 + S n))
          with (activeInteractions c1 + S n) by lia.
        eapply IH; [exact H|lia].
    + intros Hn. replace (activeInteractions c1) with (activeInteractions c) in *
        by lia.
      assert (c1 = c) as ->.
      { rewrite loop_body_idle in E by done. congruence. }
      eapply IH; [exact H|]. simpl in Hn. lia.
Qed.
End GlobalCap.

(** With the two target caps unbounded only the global cap can return. *)
Lemma loop_unbounded_target target el action (n : nat) l : forall c,
  activeInteractions c + active_count l < n ->
  exists c', loop target el action Infinity Infinity (num_of_nat n) c l
             = Continue c'.
Proof.
  unfold active_count.
  induction l as [|s l IH]; intros c; simpl; [by eexists|].
  rewrite count_sessions_cons. intros Hlt.
  unfold loop_body. destruct (interacting s) eqn:Ei; cbn [negb].
  - rewrite count_ge_of_nat, bool_decide_eq_false_2 by lia.
    destruct (bool_decide (interactable s = Some target)); cbn [negb count_ge].
    + destruct (bool_decide (element s = el));
        [rewrite andb_false_r|]; apply IH; simpl; lia.
    + apply IH; simpl; lia.
  - apply IH. lia.
Qed.

Lemma within_skips_idle target el action scope i s :
  interactions_list scope !! i = Some s -> interacting s = false ->
  withinInteractionLimit target el action scope =
  withinInteractionLimit target el action
    (with_interactions (delete i (interactions_list scope)) scope).
Proof.
  intros Hi Hidle. unfold withinInteractionLimit; simpl.
  destruct (options _ !! _) as [o|]; [|done].
  destruct (negb _); [done|].
  rewrite <- (take_drop_middle _ _ _ Hi) at 1.
  rewrite delete_take_drop, !loop_app.
  destruct (loop _ _ _ _ _ _ _ (take i _)) as [b|c]; [done|].
  simpl. by rewrite loop_body_idle.
Qed.

(** C4: with the global cap a natural [n] and both caps of the target
    unbounded, a candidate is admitted while fewer than [n] sessions are
    active (so with exactly [n - 1]) and rejected when [n] or more are; in an
    iteration the running total is compared with the global cap first,
    whatever the target, element and action; and the candidate's own session
    is not counted: a session that is not interacting leaves the answer as it
    is for the list without it, and the three handlers return before any
    check when their session is interacting. *)
Theorem C4_global_cap target el action scope o (n : nat) :
  options (interactables_get scope target) !! prop_key (name action) = Some o ->
  max o = Infinity -> maxPerElement o = Infinity ->
  AutoStart.maxInteractions (autoStart scope) = num_of_nat n ->
  (active_count (interactions_list scope) < n ->
   withinInteractionLimit target el action scope = Some true) /\
  (n <= active_count (interactions_list scope) ->
   withinInteractionLimit target el action scope = Some false) /\
  (forall target' el' action' maxActions maxPerEl c s,
     interacting s = true ->
     count_ge (S (activeInteractions c)) (num_of_nat n) = true ->
     loop_body target' el' action' maxActions maxPerEl (num_of_nat n) c s
       = Return false) /\
  (forall i s,
     interactions_list scope !! i = Some s -> interacting s = false ->
     withinInteractionLimit target el action scope =
     withinInteractionLimit target el action
       (with_interactions (delete i (interactions_list scope)) scope)) /\
  (forall arg s,
     interactions_list scope !! SignalArg.interaction arg = Some s ->
     interacting s = true ->
     prepareOnDown arg scope = Some scope /\
     prepareOnMove arg scope = Some scope /\
     startOnMove arg scope = Some scope).
Proof.
  intros Ho Hmax Hper Hcap.
  split; [|split; [|split; [|split]]].
  - intros Hlt. unfold withinInteractionLimit.
    rewrite Ho, Hmax, Hper, Hcap.
    rewrite num_of_nat_truthy by lia. cbn [num_truthy andb negb].
    destruct (loop_unbounded_target target el action n (interactions_list scope)
                zero_counters) as [c' ->]; [simpl; lia|].
    rewrite num_of_nat_gt0, bool_decide_eq_true_2; [done|lia].
  - intros Hle. unfold withinInteractionLimit. rewrite Ho, Hcap.
    destruct (negb _); [done|].
    destruct (loop _ _ _ _ _ _ _ _) as [b|c'] eqn:E.
    + f_equal. by eapply loop_returns_false.
    + f_equal. rewrite num_of_nat_gt0. apply bool_decide_eq_false. intros Hpos.
      pose proof (loop_continue_below_global _ _ _ _ _ _ _ _ _ E) as H.
      change (activeInteractions zero_counters) with 0 in H.
      rewrite Nat.add_0_l, count_ge_of_nat, bool_decide_eq_true_2 in H by lia.
      assert (1 <= active_count (interactions_list scope)) as H1 by lia.
      by specialize (H H1).
  - intros. by apply loop_body_global_first.
  - intros i s Hi Hidle. by eapply within_skips_idle.
  - intros arg s Hs Hact.
    unfold prepareOnDown, prepareOnMove, startOnMove. rewrite Hs, Hact.
    by rewrite !orb_true_r.
Qed.

(** Cap 2 with one session active: the second is admitted. *)
Lemma C4_global_cap_witness :
  withinInteractionLimit 7 (Some 1) drag
    (scope_with (num_of_nat 2) [idle_session "touch"; active_session 8 3 resize]
       (fun _ => target_with (options_with Infinity Infinity false) true None)
       (fun _ => [7])) = Some true.
Proof.
  apply (proj1 (C4_global_cap 7 (Some 1) drag
                  (scope_with (num_of_nat 2)
                     [idle_session "touch"; active_session 8 3 resize]
                     (fun _ => target_with (options_with Infinity Infinity false)
                                           true None)
                     (fun _ => [7]))
                  (options_with Infinity Infinity false) 2
                  eq_refl eq_refl eq_refl eq_refl)).
  vm_compute. lia.
Defined.

(** ** C8: the global cap accessor *)

(** C8: called with a number, [maxInteractions] stores it as the global cap
    and changes nothing else; called with anything else it returns the
    current cap and leaves the scope as it is; so after [maxInteractions(2)]
    a call with a non-number returns 2 and the cap is still 2. *)
Theorem C8_maxInteractions_setter_getter :
  (forall n scope,
     let scope' := snd (maxInteractions (VNumber n) scope) in
     AutoStart.maxInteractions (autoStart scope') = n /\
     AutoStart.cursorElement (autoStart scope')
       = AutoStart.cursorElement (autoStart scope) /\
     interactions_list scope' = interactions_list scope /\
     interactables_get scope' = interactables_get scope /\
     forEachMatch scope' = forEachMatch scope /\
     actions_getCursor scope' = actions_getCursor scope /\
     signals_fired scope' = signals_fired scope /\
     style_cursor scope' = style_cursor scope /\
     documentElement scope' = documentElement scope) /\
  (forall repr scope,
     maxInteractions (VOther repr) scope
     = (ReturnsCap (AutoStart.maxInteractions (autoStart scope)), scope)) /\
  (forall repr scope,
     let scope' := snd (maxInteractions (VNumber (Finite 2)) scope) in
     maxInteractions (VOther repr) scope' = (ReturnsCap (Finite 2), scope') /\
     AutoStart.maxInteractions
       (autoStart (snd (maxInteractions (VOther repr) scope'))) = Finite 2).
Proof.
  split; [|split].
  - intros n scope. simpl. repeat split.
  - intros repr scope. reflexivity.
  - intros repr scope. simpl. split; reflexivity.
Qed.

(** After [install] the cap is unbounded. *)
Example maxInteractions_after_install scope :
  fst (maxInteractions (VOther "undefined") (with_autoStart install_autoStart scope))
  = ReturnsCap Infinity.
Proof. reflexivity. Qed.

(** ** C6: hovering *)

(** C6, as the code has it: on a pointer-move while the pointer is not down
    and the session is not active, a mouse session is prepared exactly as on
    pointer-down (same resolution, same prepare); for every other pointer
    type neither [prepareOnMove] nor the whole handler of the notification
    changes anything. *)
Theorem C6_prepareOnMove_mouse_only arg scope s :
  interactions_list scope !! SignalArg.interaction arg = Some s ->
  pointerIsDown s = false -> interacting s = false ->
  (pointerType s = "mouse" -> prepareOnMove arg scope = prepareOnDown arg scope) /\
  (pointerType s <> "mouse" ->
   prepareOnMove arg scope = Some scope /\ onMove arg scope = Some scope).
Proof.
  intros Hs Hdown Hact. split.
  - unfold prepareOnMove, prepareOnDown. rewrite Hs, Hdown, Hact.
    intros ->. reflexivity.
  - intros Hne. apply String.eqb_neq in Hne.
    assert (prepareOnMove arg scope = Some scope) as Hmove.
    { unfold prepareOnMove. by rewrite Hs, Hne. }
    split; [exact Hmove|].
    unfold onMove. rewrite Hmove. unfold startOnMove. by rewrite Hs, Hdown.
Qed.

Lemma C6_prepareOnMove_mouse_only_witness :
  prepareOnMove (arg_over child_of_parent) scope_manual_child
  = prepareOnDown (arg_over child_of_parent) scope_manual_child.
Proof.
  apply (proj1 (C6_prepareOnMove_mouse_only
                  (arg_over child_of_parent) scope_manual_child
                  (idle_session "mouse") eq_refl eq_refl eq_refl)).
  reflexivity.
Defined.

(** C6 as stated fails for a touch pointer: hovering, pointer-down prepares
    the drag of the parent's target while pointer-move leaves the session
    unprepared. *)
Lemma C6_touch_move_prepares_nothing :
  interactions_list scope_touch_hover !! 0 = Some (idle_session "touch") /\
  pointerIsDown (idle_session "touch") = false /\
  interacting (idle_session "touch") = false /\
  prepareOnMove (arg_over child_of_parent) scope_touch_hover
  = Some scope_touch_hover /\
  (name ∘ prepared) <$>
    session_after (prepareOnMove (arg_over child_of_parent) scope_touch_hover) 0
  = Some None /\
  (name ∘ prepared) <$>
    session_after (prepareOnDown (arg_over child_of_parent) scope_touch_hover) 0
  = Some (Some "drag").
Proof. repeat split. Qed.

(** ** Validation and resolution are sound *)

(** A validated action is the proposed one, and it passed the three tests. *)
Lemma validateAction_Some action target el eventTarget scope action' :
  validateAction action target el eventTarget scope = Some (Some action') ->
  action' = action /\
  exists o,
    options (interactables_get scope target) !! prop_key (name action) = Some o /\
    testIgnoreAllow (interactables_get scope target) (Some o) el eventTarget
      = true /\
    enabled o = true /\
    withinInteractionLimit target el action scope = Some true.
Proof.
  unfold validateAction.
  destruct (testIgnoreAllow _ _ _ _) eqn:Ht; [|done].
  destruct (options _ !! _) as [o|] eqn:Ho; [|done].
  destruct (enabled o) eqn:He; [|done].
  destruct (withinInteractionLimit _ _ _ _) as [[|]|] eqn:Hw; [|done|done].
  intros [= <-]. split; [done|]. by exists o.
Qed.

Section Validated.
Variables (interaction : Session) (pointer : Pointer) (event : PointerEvent).
Variables (eventTarget : Node) (scope : Scope).

(** The answer of [validateMatches] is the none result or a candidate of the
    list, with its element, whose proposed action was validated. *)
Lemma validateMatches_from_sound matchElements rest : forall i info,
  validateMatches_from interaction pointer event eventTarget scope
                       matchElements rest i = Some info ->
  info = ActionInfo.none \/
  exists a t j,
    info = ActionInfo.mk (Some a) (Some t) (matchElements !! (i + j)) /\
    rest !! j = Some t /\
    getAction (interactables_get scope t) pointer event interaction
              (matchElements !! (i + j)) = Some a /\
    validateAction a t (matchElements !! (i + j)) eventTarget scope
      = Some (Some a).
Proof.
  induction rest as [|t rest IH]; intros i info; simpl.
  - intros [= <-]. by left.
  - assert (forall info,
              validateMatches_from interaction pointer event eventTarget scope
                                   matchElements rest (S i) = Some info ->
              info = ActionInfo.none \/
              exists a t' j,
                info = ActionInfo.mk (Some a) (Some t')
                                     (matchElements !! (i + j)) /\
                (t :: rest) !! j = Some t' /\
                getAction (interactables_get scope t') pointer event interaction
                          (matchElements !! (i + j)) = Some a /\
                validateAction a t' (matchElements !! (i + j)) eventTarget scope
                  = Some (Some a)) as Hnext.
    { intros info' H. apply IH in H as [H|(a & t' & j & H1 & H2 & H3 & H4)];
        [by left|right].
      exists a, t', (S j). replace (i + S j) with (S i + j) by lia. done. }
    destruct (getAction _ _ _ _ _) as [matchAction|] eqn:Hget; [|apply Hnext].
    destruct (validateAction _ _ _ _ _) as [[action|]|] eqn:Hval;
      [|apply Hnext|done].
    intros [= <-]. right.
    pose proof (validateAction_Some _ _ _ _ _ _ Hval) as [-> _].
    exists matchAction, t, 0. rewrite Nat.add_0_r. done.
Qed.

Lemma node_match_sound e info :
  node_match interaction pointer event eventTarget scope e = Some info ->
  info = ActionInfo.none \/
  exists a t,
    info = ActionInfo.mk (Some a) (Some t) (Some e) /\
    t ∈ forEachMatch scope e /\
    getAction (interactables_get scope t) pointer event interaction (Some e)
      = Some a /\
    validateAction a t (Some e) eventTarget scope = Some (Some a).
Proof.
  unfold node_match, validateMatches. intros H.
  apply validateMatches_from_sound in H as [H|(a & t & j & H1 & H2 & H3 & H4)];
    [by left|right].
  simpl in *. rewrite list_lookup_fmap, H2 in *. simpl in *.
  exists a, t. repeat split; try done.
  by eapply list_elem_of_lookup_2.
Qed.

(** What [getActionInfo] returns: the none result, or the validated match of
    an element of the chain whose action has no [manualStart]. *)
Lemma getActionInfo_from_sound node : forall info,
  getActionInfo_from interaction pointer event eventTarget scope node
    = Some info ->
  info = ActionInfo.none \/
  exists a t e,
    info = ActionInfo.mk (Some a) (Some t) (Some e) /\
    e ∈ ancestors node /\ t ∈ forEachMatch scope e /\
    getAction (interactables_get scope t) pointer event interaction (Some e)
      = Some a /\
    validateAction a t (Some e) eventTarget scope = Some (Some a) /\
    match_with_manualStart scope false info.
Proof.
  induction node as [|e parent IH]; intros info; simpl.
  - intros [= <-]. by left.
  - fold (node_match interaction pointer event eventTarget scope e).
    destruct (node_match _ _ _ _ _ e) as [m|] eqn:Hm; [|done].
    destruct (auto_startable scope m) as [[|]|] eqn:Hauto; [| |done].
    + intros [= <-]. right.
      apply node_match_sound in Hm as [->|(a & t & -> & Hin & Hget & Hval)];
        [done|].
      exists a, t, e. repeat split; try done; [apply list_elem_of_here|].
      unfold auto_startable in Hauto. simpl in Hauto.
      destruct (options _ !! _) as [o|] eqn:Ho; [|done].
      exists a, t, o. repeat split; try done.
      injection Hauto as Hauto. by destruct (manualStart o).
    + intros H. apply IH in H as [H|(a & t & e' & H1 & H2 & H)]; [by left|right].
      exists a, t, e'. repeat split; try done; try apply H.
      by apply list_elem_of_further.
Qed.
End Validated.

(** The loop condition and the step to the parent, on the chain. *)
Lemma ancestors_parentNode (n : Node) :
  is_element n = true -> exists e, ancestors n = e :: ancestors (parentNode n).
Proof. destruct n as [|e parent]; [done|]. by exists e. Qed.

Lemma getActionInfo_from_not_element
    interaction pointer event eventTarget scope (n : Node) :
  is_element n = false ->
  getActionInfo_from interaction pointer event eventTarget scope n
  = Some ActionInfo.none.
Proof. by destruct n. Qed.

(** ** C3: ascending resolution *)

Section Ascending.
Variables (interaction : Session) (pointer : Pointer) (event : PointerEvent).
Variables (eventTarget : Node) (scope : Scope).

Local Abbreviation resolve_from :=
  (getActionInfo_from interaction pointer event eventTarget scope).
Local Abbreviation at_node :=
  (node_match interaction pointer event eventTarget scope).

Lemma auto_startable_manual info manual :
  match_with_manualStart scope manual info ->
  auto_startable scope info = Some (negb manual).
Proof.
  intros (a & t & o & Ha & Ht & Ho & Hm). unfold auto_startable.
  by rewrite Ha, Ht, Ho, Hm.
Qed.

Lemma auto_startable_passed_over info :
  ActionInfo.action info = None \/ match_with_manualStart scope true info ->
  auto_startable scope info = Some false.
Proof.
  intros [H|H]; [|by apply (auto_startable_manual info true)].
  unfold auto_startable. by rewrite H.
Qed.

(** One turn of the [while] loop. *)
Lemma getActionInfo_from_step e parent info :
  at_node e = Some info ->
  resolve_from (Elem e parent) =
  match auto_startable scope info with
  | Some true => Some info
  | Some false => resolve_from parent
  | None => None
  end.
Proof.
  unfold node_match. intros H. simpl. rewrite H.
  by destruct (auto_startable scope info) as [[|]|].
Qed.

(** Climbing past the nodes that yield nothing to return. *)
Lemma getActionInfo_from_climbs pre : forall node rest,
  ancestors node = pre ++ rest ->
  Forall (passed_over interaction pointer event eventTarget scope) pre ->
  exists node', ancestors node' = rest /\ resolve_from node = resolve_from node'.
Proof.
  induction pre as [|e pre IH]; intros node rest Hanc Hpre.
  - by exists node.
  - destruct node as [|e' parent]; [done|].
    simpl in Hanc. injection Hanc as -> Hanc.
    apply Forall_cons in Hpre as [(info & Hinfo & Hpass) Hpre].
    destruct (IH parent rest Hanc Hpre) as (node' & Hrest & Heq).
    exists node'. split; [done|].
    rewrite (getActionInfo_from_step _ _ _ Hinfo).
    by rewrite (auto_startable_passed_over _ Hpass).
Qed.

Lemma getActionInfo_from_first_auto node pre e post m :
  ancestors node = pre ++ e :: post ->
  Forall (passed_over interaction pointer event eventTarget scope) pre ->
  at_node e = Some m -> match_with_manualStart scope false m ->
  resolve_from node = Some m.
Proof.
  intros Hanc Hpre Hm Hauto.
  destruct (getActionInfo_from_climbs pre node (e :: post) Hanc Hpre)
    as (node' & Hrest & ->).
  destruct node' as [|e' parent]; [done|].
  simpl in Hrest. injection Hrest as -> _.
  rewrite (getActionInfo_from_step _ _ _ Hm).
  by rewrite (auto_startable_manual _ false Hauto).
Qed.

Lemma getActionInfo_from_exhausted node :
  Forall (passed_over interaction pointer event eventTarget scope)
         (ancestors node) ->
  resolve_from node = Some ActionInfo.none.
Proof.
  intros Hall.
  destruct (getActionInfo_from_climbs (ancestors node) node [])
    as (node' & Hrest & ->); [by rewrite app_nil_r|done|].
  by destruct node'.
Qed.
End Ascending.

(** What is returned is the none result or the match of a visited element. *)
Lemma getActionInfo_from_returns
    interaction pointer event eventTarget scope node : forall m,
  getActionInfo_from interaction pointer event eventTarget scope node = Some m ->
  m = ActionInfo.none \/
  match_with_manualStart scope false m /\
  exists e, ActionInfo.element m = Some e /\ e ∈ ancestors node /\
            node_match interaction pointer event eventTarget scope e = Some m.
Proof.
  induction node as [|e parent IH]; intros m; simpl.
  - intros [= <-]. by left.
  - fold (node_match interaction pointer event eventTarget scope e).
    destruct (node_match _ _ _ _ _ e) as [m'|] eqn:Hm; [|done].
    destruct (auto_startable scope m') as [[|]|] eqn:Hauto; [| |done].
    + intros [= <-]. pose proof Hm as Hm2.
      apply node_match_sound in Hm2 as [->|(a & t & -> & Hin & Hget & Hval)];
        [done|right].
      split.
      * unfold auto_startable in Hauto. simpl in Hauto.
        destruct (options _ !! _) as [o|] eqn:Ho; [|done].
        exists a, t, o. repeat split; try done.
        injection Hauto as Hauto. by destruct (manualStart o).
      * exists e. repeat split; [apply list_elem_of_here|done].
    + intros H. apply IH in H as [H|(Hman & e' & He' & Hin & Hnm)]; [by left|].
      right. split; [done|]. exists e'. repeat split; try done.
      by apply list_elem_of_further.
Qed.

(** C3: [getActionInfo] returns the match of the first element of the
    ancestor chain whose match has no [manualStart], climbing past the
    elements with no match or a manual-start match; when the whole chain has
    only such elements it returns the none result; so with a manual-start
    match at the child and an auto-start match at its parent it returns the
    parent's match; and whatever it returns is the none result or the match
    of a visited element whose action has no [manualStart]. *)
Theorem C3_ascending_resolution interaction pointer event eventTarget scope :
  (forall pre e post m,
     ancestors eventTarget = pre ++ e :: post ->
     Forall (passed_over interaction pointer event eventTarget scope) pre ->
     node_match interaction pointer event eventTarget scope e = Some m ->
     match_with_manualStart scope false m ->
     getActionInfo interaction pointer event eventTarget scope = Some m) /\
  (Forall (passed_over interaction pointer event eventTarget scope)
          (ancestors eventTarget) ->
   getActionInfo interaction pointer event eventTarget scope
   = Some ActionInfo.none) /\
  (forall child parent rest mc mp,
     eventTarget = Elem child (Elem parent rest) ->
     node_match interaction pointer event eventTarget scope child = Some mc ->
     match_with_manualStart scope true mc ->
     node_match interaction pointer event eventTarget scope parent = Some mp ->
     match_with_manualStart scope false mp ->
     getActionInfo interaction pointer event eventTarget scope = Some mp) /\
  (forall m,
     getActionInfo interaction pointer event eventTarget scope = Some m ->
     m = ActionInfo.none \/
     match_with_manualStart scope false m /\
     exists e, ActionInfo.element m = Some e /\ e ∈ ancestors eventTarget /\
               node_match interaction pointer event eventTarget scope e = Some m).
Proof.
  unfold getActionInfo. split; [|split; [|split]].
  - intros pre e post m. apply getActionInfo_from_first_auto.
  - apply getActionInfo_from_exhausted.
  - intros child parent rest mc mp -> Hc Hmc Hp Hmp.
    eapply (getActionInfo_from_first_auto _ _ _ _ _ _ [child] parent);
      [reflexivity| |exact Hp|exact Hmp].
    apply Forall_cons. split; [|by apply Forall_nil].
    exists mc. eauto.
  - intros m H. by apply getActionInfo_from_returns.
Qed.

(** Within one element the first validated candidate is the match: when it
    needs a manual start the element is passed over, whatever comes after it
    in the list. *)
Example manual_first_candidate_is_the_match :
  node_match (idle_session "mouse") 0 0 (Elem 1 NotAnElement)
             scope_manual_first 1
  = Some (ActionInfo.mk (Some drag) (Some 7) (Some 1)) /\
  getActionInfo (idle_session "mouse") 0 0 (Elem 1 NotAnElement)
                scope_manual_first
  = Some ActionInfo.none.
Proof. split; reflexivity. Qed.

(** The child's target needs a manual start, the parent's does not: the
    parent's match is returned. *)
Lemma C3_ascending_resolution_witness :
  getActionInfo (idle_session "mouse") 0 0 child_of_parent scope_manual_child
  = Some (ActionInfo.mk (Some drag) (Some 8) (Some 2)).
Proof.
  apply (proj1 (proj2 (proj2 (C3_ascending_resolution
                                (idle_session "mouse") 0 0 child_of_parent
                                scope_manual_child)))
           1 2 NotAnElement
           (ActionInfo.mk (Some drag) (Some 7) (Some 1))
           (ActionInfo.mk (Some drag) (Some 8) (Some 2))).
  - reflexivity.
  - reflexivity.
  - exists drag, 7, (options_with Infinity (Finite 1) true). by repeat split.
  - reflexivity.
  - exists drag, 8, (options_with Infinity (Finite 1) false). by repeat split.
Defined.


(** ** Frame facts of the cursor functions *)

Lemma setCursor_Some_inv elem cursor scope scope' :
  setCursor elem cursor scope = Some scope' ->
  exists e, elem = Some e /\
    interactions_list scope' = interactions_list scope /\
    interactables_get scope' = interactables_get scope /\
    forEachMatch scope' = forEachMatch scope /\
    actions_getCursor scope' = actions_getCursor scope /\
    signals_fired scope' = signals_fired scope /\
    documentElement scope' = documentElement scope /\
    AutoStart.maxInteractions (autoStart scope')
      = AutoStart.maxInteractions (autoStart scope) /\
    AutoStart.cursorElement (autoStart scope')
      = (if string_truthy cursor then Some e else None).
Proof.
  unfold setCursor. destruct elem as [e|]; [|done].
  intros [= <-]. exists e. by repeat split.
Qed.

Lemma setCursor_total e cursor scope :
  exists scope', setCursor (Some e) cursor scope = Some scope'.
Proof. by eexists. Qed.

(** The styles after [setCursor]. *)
Lemma setCursor_styles e cursor scope scope' :
  setCursor (Some e) cursor scope = Some scope' ->
  cursor_of scope' e = cursor /\
  cursor_of scope' (documentElement scope e) = cursor /\
  (forall x, x <> e -> x <> documentElement scope e ->
     cursor_of scope' x =
     if bool_decide (AutoStart.cursorElement (autoStart scope) = Some x)
     then "" else cursor_of scope x).
Proof.
  intros [= <-]. unfold cursor_of; simpl. split; [|split].
  - by rewrite lookup_insert_eq.
  - destruct (decide (e = documentElement scope e)) as [<-|Hne].
    + by rewrite lookup_insert_eq.
    + by rewrite lookup_insert_ne, lookup_insert_eq.
  - intros x Hx Hroot. rewrite !lookup_insert_ne by done.
    destruct (AutoStart.cursorElement (autoStart scope)) as [previous|].
    + case_bool_decide as Hp.
      * injection Hp as ->. by rewrite lookup_insert_eq.
      * rewrite lookup_insert_ne; [done|congruence].
    + by rewrite bool_decide_eq_false_2.
Qed.



Lemma setInteractionCursor_cases i scope scope' :
  setInteractionCursor i scope = Some scope' ->
  scope' = scope \/
  exists elem cursor, setCursor elem cursor scope = Some scope'.
Proof.
  unfold setInteractionCursor.
  destruct (interactions_list scope !! i) as [s|]; [|done].
  destruct (interactable s) as [t|]; [|intros [= <-]; by left].
  destruct (negb _); [intros [= <-]; by left|].
  destruct (name_truthy _).
  - destruct (options _ !! _) as [o|]; [|done].
    destruct (cursorChecker o) as [checker|]; [by right; eauto|].
    destruct (actions_getCursor scope !! _); [by right; eauto|done].
  - right; eauto.
Qed.

Lemma setInteractionCursor_sessions i scope scope' :
  setInteractionCursor i scope = Some scope' ->
  interactions_list scope' = interactions_list scope /\
  interactables_get scope' = interactables_get scope /\
  signals_fired scope' = signals_fired scope /\
  AutoStart.maxInteractions (autoStart scope')
    = AutoStart.maxInteractions (autoStart scope).
Proof.
  intros H. apply setInteractionCursor_cases in H as [->|(elem & cursor & H)];
    [done|].
  apply setCursor_Some_inv in H as (e & _ & H1 & H2 & _ & _ & H3 & _ & H4 & _).
  done.
Qed.




(** ** prepare *)

Lemma prepare_unfold i info scope :
  prepare i info scope =
  match interactions_list scope !! i with
  | Some s =>
      match clear_previous s scope with
      | Some scope1 =>
          match setInteractionCursor i
                  (with_session i (prepared_session scope s info) scope1) with
          | Some scope2 => Some (fire (Prepared i) scope2)
          | None => None
          end
      | None => None
      end
  | None => None
  end.
Proof. reflexivity. Qed.

Lemma clearCursorOnStop_unfold i scope :
  clearCursorOnStop i scope =
  match interactions_list scope !! i with
  | Some s => clear_previous s scope
  | None => None
  end.
Proof. reflexivity. Qed.

Lemma clear_previous_cases s scope scope1 :
  clear_previous s scope = Some scope1 ->
  scope1 = scope \/ setCursor (element s) "" scope = Some scope1.
Proof.
  unfold clear_previous. destruct (interactable s) as [t|]; [|intros [= <-]; by left].
  destruct (styleCursor _); [by right|intros [= <-]; by left].
Qed.

Lemma clear_previous_sessions s scope scope1 :
  clear_previous s scope = Some scope1 ->
  interactions_list scope1 = interactions_list scope /\
  interactables_get scope1 = interactables_get scope /\
  signals_fired scope1 = signals_fired scope /\
  AutoStart.maxInteractions (autoStart scope1)
    = AutoStart.maxInteractions (autoStart scope).
Proof.
  intros H. apply clear_previous_cases in H as [->|H]; [done|].
  apply setCursor_Some_inv in H as (e & _ & H1 & H2 & _ & _ & H3 & _ & H4 & _).
  done.
Qed.

(** [prepare] writes [prepared_session] at the session's place, and nothing
    else in the list. *)
Lemma prepare_sessions i info scope scope' :
  prepare i info scope = Some scope' ->
  exists s,
    interactions_list scope !! i = Some s /\
    interactions_list scope'
      = <[i := prepared_session scope s info]> (interactions_list scope) /\
    interactions_list scope' !! i = Some (prepared_session scope s info) /\
    signals_fired scope' = signals_fired scope ++ [Prepared i].
Proof.
  rewrite prepare_unfold.
  destruct (interactions_list scope !! i) as [s|] eqn:Hs; [|done].
  destruct (clear_previous s scope) as [scope1|] eqn:H1; [|done].
  destruct (setInteractionCursor _ _) as [scope2|] eqn:H2; [|done].
  intros [= <-]. exists s. split; [done|].
  apply clear_previous_sessions in H1 as (L1 & _ & F1 & _).
  apply setInteractionCursor_sessions in H2 as (L2 & _ & F2 & _).
  simpl in *. rewrite L2, F2, L1, F1. repeat split.
  apply list_lookup_insert_eq. by eapply lookup_lt_Some.
Qed.


(** ** C9: what a prepared name stands for *)

Lemma getActionInfo_validated interaction pointer event eventTarget scope info s :
  getActionInfo interaction pointer event eventTarget scope = Some info ->
  (ActionInfo.action info = None /\ ActionInfo.interactable info = None /\
   ActionInfo.element info = None) \/
  validated_at scope eventTarget (prepared_session scope s info).
Proof.
  unfold getActionInfo. intros H.
  apply getActionInfo_from_sound
    in H as [->|(a & t & e & -> & _ & _ & _ & Hval & _)]; [by left|right].
  pose proof (validateAction_Some _ _ _ _ _ _ Hval) as (_ & o & Ho & Ht & He & Hw).
  exists a, t, e, o. by repeat split.
Qed.

(** C9: [validateMatches] answers a non-null action only together with the
    candidate that proposed it and that candidate's element, the action having
    passed [validateAction]; [prepare] records exactly the triple it is given
    (the name-less action and no target for the none result); so after every
    preparation from a pointer-down or a pointer-move the session either is
    untouched or has a non-empty prepared name only with a target and element
    for which the action passed [validateAction] (filters, enabled flag and
    [withinInteractionLimit]) in the scope of the preparation. *)
Theorem C9_prepared_name_validated :
  (forall interaction pointer event eventTarget scope matches matchElements
          info a,
     length matchElements = length matches ->
     validateMatches interaction pointer event eventTarget scope
                     matches matchElements = Some info ->
     ActionInfo.action info = Some a ->
     exists t e j,
       ActionInfo.interactable info = Some t /\ matches !! j = Some t /\
       ActionInfo.element info = Some e /\ matchElements !! j = Some e /\
       validateAction a t (Some e) eventTarget scope = Some (Some a)) /\
  (forall i info scope scope',
     prepare i info scope = Some scope' ->
     exists s s',
       interactions_list scope !! i = Some s /\
       interactions_list scope' !! i = Some s' /\
       interactable s' = ActionInfo.interactable info /\
       element s' = ActionInfo.element info /\
       prepared s' =
         match ActionInfo.action info with
         | Some a => mkAction (name a) (hints a)
         | None => mkAction None None
         end) /\
  (forall handler arg scope scope' s,
     handler = prepareOnDown \/ handler = prepareOnMove ->
     interactions_list scope !! SignalArg.interaction arg = Some s ->
     handler arg scope = Some scope' ->
     scope' = scope \/
     exists s',
       interactions_list scope' !! SignalArg.interaction arg = Some s' /\
       (name_truthy (name (prepared s')) = true ->
        validated_at scope (SignalArg.eventTarget arg) s') /\
       (name_truthy (name (prepared s')) = false ->
        interactable s' = None /\ element s' = None \/
        validated_at scope (SignalArg.eventTarget arg) s')).
Proof.
  split; [|split].
  - intros interaction pointer event eventTarget scope matches matchElements
           info a Hlen H Ha.
    unfold validateMatches in H.
    apply validateMatches_from_sound in H as [->|(a' & t & j & -> & Hj & _ & Hv)];
      [done|].
    simpl in *. injection Ha as ->.
    destruct (lookup_lt_is_Some_2 matchElements j) as [e He].
    { rewrite Hlen. by eapply lookup_lt_Some. }
    rewrite He in *. by exists t, e, j.
  - intros i info scope scope' H.
    apply prepare_sessions in H as (s & Hs & _ & Hs' & _).
    exists s, (prepared_session scope s info). repeat split; try done.
    simpl. by destruct (ActionInfo.action info).
  - assert (forall arg scope scope' s,
              interactions_list scope !! SignalArg.interaction arg = Some s ->
              (let? actionInfo :=
                 getActionInfo s (SignalArg.pointer arg) (SignalArg.event arg)
                               (SignalArg.eventTarget arg) scope in
               prepare (SignalArg.interaction arg) actionInfo scope)
              = Some scope' ->
              exists s',
                interactions_list scope' !! SignalArg.interaction arg = Some s' /\
                (name_truthy (name (prepared s')) = true ->
                 validated_at scope (SignalArg.eventTarget arg) s') /\
                (name_truthy (name (prepared s')) = false ->
                 interactable s' = None /\ element s' = None \/
                 validated_at scope (SignalArg.eventTarget arg) s')) as Hrun.
    { intros arg scope scope' s Hs H.
      destruct (getActionInfo _ _ _ _ _) as [info|] eqn:Hinfo; [|done].
      apply prepare_sessions in H as (s0 & Hs0 & _ & Hs' & _).
      rewrite Hs in Hs0. injection Hs0 as <-.
      exists (prepared_session scope s info). split; [done|].
      destruct (getActionInfo_validated _ _ _ _ _ _ s Hinfo)
        as [(Ha & Ht & He)|Hval].
      - split; [|by left]. simpl. by rewrite Ha.
      - split; [done|by right]. }
    intros handler arg scope scope' s [->| ->] Hs.
    + unfold prepareOnDown. rewrite Hs.
      destruct (interacting s); [intros [= <-]; by left|].
      intros H. right. by eapply Hrun.
    + unfold prepareOnMove. rewrite Hs.
      destruct (_ || _); [intros [= <-]; by left|].
      intros H. right. by eapply Hrun.
Qed.

(** A pointer-down on the child prepares the drag of the parent's target. *)
Lemma C9_prepared_name_validated_witness :
  exists scope',
    prepareOnDown (arg_over child_of_parent) scope_manual_child = Some scope' /\
    (scope' = scope_manual_child \/
     exists s',
       interactions_list scope' !! 0 = Some s' /\
       (name_truthy (name (prepared s')) = true ->
        validated_at scope_manual_child child_of_parent s') /\
       (name_truthy (name (prepared s')) = false ->
        interactable s' = None /\ element s' = None \/
        validated_at scope_manual_child child_of_parent s')).
Proof.
  eexists. split; [reflexivity|].
  apply (proj2 (proj2 C9_prepared_name_validated)
           prepareOnDown (arg_over child_of_parent) scope_manual_child _
           (idle_session "mouse")).
  - by left.
  - reflexivity.
  - reflexivity.
Defined.

(** ** C10: a failed resolution *)

Lemma setInteractionCursor_no_target i scope s :
  interactions_list scope !! i = Some s -> interactable s = None ->
  setInteractionCursor i scope = Some scope.
Proof. intros Hs Ht. unfold setInteractionCursor. by rewrite Hs, Ht. Qed.

Lemma with_session_lookup i s scope s0 :
  interactions_list scope !! i = Some s0 ->
  interactions_list (with_session i s scope) !! i = Some s.
Proof.
  intros H. simpl. apply list_lookup_insert_eq. by eapply lookup_lt_Some.
Qed.

(** C10: with the session's element present whenever its target styles
    cursors, [prepare] of the none result succeeds and overwrites the
    prepared state: target, element and rect become null and the prepared
    action the name-less one; the cursor of the previous target is cleared
    when that target styles cursors (its element, the document element and
    the recorded cursor element end with the empty style, and no cursor
    element stays recorded), and is left as it is otherwise; this is what a
    pointer-down does when the resolver finds no candidate. *)
Theorem C10_failed_resolution_wipes i scope s :
  interactions_list scope !! i = Some s ->
  (forall t, interactable s = Some t ->
             styleCursor (interactables_get scope t) = true ->
             is_Some (element s)) ->
  exists scope',
    prepare i ActionInfo.none scope = Some scope' /\
    interactions_list scope' =
      <[i := mkSession (pointerType s) (pointerIsDown s) (pointerWasMoved s)
                       (_interacting s) (mkAction None None) None None None]>
        (interactions_list scope) /\
    (forall t e,
       interactable s = Some t ->
       styleCursor (interactables_get scope t) = true ->
       element s = Some e ->
       AutoStart.cursorElement (autoStart scope') = None /\
       cursor_of scope' e = "" /\
       cursor_of scope' (documentElement scope e) = "" /\
       (forall p, AutoStart.cursorElement (autoStart scope) = Some p ->
                  cursor_of scope' p = "")) /\
    (interactable s = None \/
     (exists t, interactable s = Some t /\
                styleCursor (interactables_get scope t) = false) ->
     style_cursor scope' = style_cursor scope /\
     autoStart scope' = autoStart scope) /\
    signals_fired scope' = signals_fired scope ++ [Prepared i] /\
    (forall arg,
       SignalArg.interaction arg = i -> interacting s = false ->
       getActionInfo s (SignalArg.pointer arg) (SignalArg.event arg)
                     (SignalArg.eventTarget arg) scope = Some ActionInfo.none ->
       prepareOnDown arg scope = Some scope').
Proof.
  intros Hs Hel.
  assert (exists scope1, clear_previous s scope = Some scope1) as [scope1 H1].
  { unfold clear_previous. destruct (interactable s) as [t|] eqn:Ht; [|by eexists].
    destruct (styleCursor _) eqn:Hst; [|by eexists].
    destruct (Hel t eq_refl Hst) as [e ->]. apply setCursor_total. }
  pose proof (clear_previous_sessions _ _ _ H1) as (L1 & _ & F1 & _).
  assert (setInteractionCursor i
            (with_session i (prepared_session scope s ActionInfo.none) scope1)
          = Some (with_session i (prepared_session scope s ActionInfo.none)
                               scope1)) as H2.
  { eapply setInteractionCursor_no_target;
      [eapply with_session_lookup; rewrite L1; exact Hs|reflexivity]. }
  assert (prepare i ActionInfo.none scope
          = Some (fire (Prepared i)
                    (with_session i (prepared_session scope s ActionInfo.none)
                                  scope1))) as Hprep.
  { rewrite prepare_unfold, Hs, H1, H2. reflexivity. }
  eexists. split; [exact Hprep|].
  split; [simpl; by rewrite L1|].
  split; [|split; [|split; [simpl; by rewrite F1|]]].
  - intros t e Ht Hst He. revert H1. unfold clear_previous.
    rewrite Ht, Hst, He. intros H1.
    change (AutoStart.cursorElement (autoStart scope1) = None /\
            cursor_of scope1 e = "" /\
            cursor_of scope1 (documentElement scope e) = "" /\
            (forall p, AutoStart.cursorElement (autoStart scope) = Some p ->
                       cursor_of scope1 p = "")).
    pose proof (setCursor_Some_inv _ _ _ _ H1)
      as (e' & _ & _ & _ & _ & _ & _ & _ & _ & Hce).
    pose proof (setCursor_styles _ _ _ _ H1) as (Se & Sroot & Sother).
    repeat split; try done.
    intros p Hp.
    destruct (decide (p = e)) as [->|Hne]; [done|].
    destruct (decide (p = documentElement scope e)) as [->|Hnr]; [done|].
    rewrite (Sother p Hne Hnr). by rewrite bool_decide_eq_true_2.
  - intros Hno.
    change (style_cursor scope1 = style_cursor scope /\
            autoStart scope1 = autoStart scope).
    revert H1. unfold clear_previous.
    destruct Hno as [->|(t & -> & ->)]; by intros [= <-].
  - intros arg Hi Hidle Hnone. unfold prepareOnDown.
    rewrite Hi, Hs, Hidle, Hnone. exact Hprep.
Qed.

(** A session prepared for a drag loses target, element, rect and cursor. *)
Lemma C10_failed_resolution_wipes_witness :
  exists scope',
    prepare 0 ActionInfo.none scope_prepared_drag = Some scope' /\
    interactions_list scope' =
      [mkSession "mouse" false false false (mkAction None None) None None None] /\
    AutoStart.cursorElement (autoStart scope') = None /\
    cursor_of scope' 2 = "".
Proof.
  destruct (C10_failed_resolution_wipes 0 scope_prepared_drag
              (mkSession "mouse" false false false drag (Some 8) (Some 2)
                         (Some (mkRect 0 0 10 10))) eq_refl)
    as (scope' & Hprep & Hlist & Hclear & _).
  - intros t _ _. by eexists.
  - exists scope'. split; [exact Hprep|]. split; [exact Hlist|].
    destruct (Hclear 8 2 eq_refl eq_refl eq_refl) as (Hce & He & _).
    by split.
Defined.

(** ** Starting and stopping *)

Lemma interaction_stop_Some_inv i scope scope' :
  interaction_stop i scope = Some scope' ->
  exists scope1 s1,
    clearCursorOnStop i scope = Some scope1 /\
    interactions_list scope1 !! i = Some s1 /\
    scope' = with_session i
               (mkSession (pointerType s1) (pointerIsDown s1) (pointerWasMoved s1)
                          false (mkAction None (hints (prepared s1)))
                          None None (rect s1)) scope1.
Proof.
  unfold interaction_stop.
  destruct (clearCursorOnStop i scope) as [scope1|]; [|done].
  destruct (interactions_list scope1 !! i) as [s1|] eqn:Hs1; [|done].
  intros [= <-]. by exists scope1, s1.
Qed.

(** After [interaction.stop] the session is idle and holds no target. *)
Lemma interaction_stop_idle i scope scope' :
  interaction_stop i scope = Some scope' ->
  exists s', interactions_list scope' !! i = Some s' /\
             interacting s' = false /\ interactable s' = None /\
             element s' = None /\ name (prepared s') = None.
Proof.
  intros H. apply interaction_stop_Some_inv in H as (scope1 & s1 & _ & Hs1 & ->).
  eexists. split; [by eapply with_session_lookup|]. done.
Qed.

Lemma interaction_stop_total i scope s :
  interactions_list scope !! i = Some s -> is_Some (element s) ->
  is_Some (interaction_stop i scope).
Proof.
  intros Hs [e He]. unfold interaction_stop.
  assert (exists scope1, clearCursorOnStop i scope = Some scope1) as [scope1 H1].
  { rewrite clearCursorOnStop_unfold, Hs. unfold clear_previous.
    destruct (interactable s); [|by eexists].
    destruct (styleCursor _); [|by eexists].
    rewrite He. apply setCursor_total. }
  rewrite H1.
  rewrite clearCursorOnStop_unfold, Hs in H1.
  apply clear_previous_sessions in H1 as (-> & _). by rewrite Hs.
Qed.


Lemma interaction_start_Some_inv i action target el scope scope' :
  interaction_start i action target el scope = Some scope' ->
  exists s,
    interactions_list scope !! i = Some s /\
    scope' = with_session i
               (mkSession (pointerType s) (pointerIsDown s) (pointerWasMoved s)
                          true (copyAction (prepared s) action) (Some target) el
                          (rect s)) scope.
Proof.
  unfold interaction_start.
  destruct (interactions_list scope !! i) as [s|]; [|done].
  intros [= <-]. by exists s.
Qed.




(** ** C5: one cursor override *)







(** ** C7: starting on a move *)

Lemma setInteractionCursor_total i scope s t o :
  interactions_list scope !! i = Some s ->
  interactable s = Some t -> is_Some (element s) ->
  options (interactables_get scope t) !! prop_key (name (prepared s)) = Some o ->
  is_Some (cursorChecker o) \/
  is_Some (actions_getCursor scope !! prop_key (name (prepared s))) ->
  is_Some (setInteractionCursor i scope).
Proof.
  intros Hs Ht [e He] Ho Hcursor. unfold setInteractionCursor.
  rewrite Hs, Ht, He. destruct (negb _); [done|].
  destruct (name_truthy _); [|done].
  rewrite Ho. destruct (cursorChecker o) as [checker|]; [done|].
  destruct Hcursor as [[? ?]|[g ->]]; done.
Qed.

Lemma startOnMove_ready arg scope s t o :
  interactions_list scope !! SignalArg.interaction arg = Some s ->
  pointerIsDown s = true -> interacting s = false ->
  pointerWasMoved s = true -> name_truthy (name (prepared s)) = true ->
  interactable s = Some t ->
  options (interactables_get scope t) !! prop_key (name (prepared s)) = Some o ->
  startOnMove arg scope =
  let i := SignalArg.interaction arg in
  let scope1 := fire (BeforeStart i) scope in
  if manualStart o then interaction_stop i scope1 else
  match withinInteractionLimit t (element s) (prepared s) scope with
  | Some true =>
      match interaction_start i (prepared s) t (element s) scope1 with
      | Some scope2 => setInteractionCursor i scope2
      | None => None
      end
  | Some false => interaction_stop i scope1
  | None => None
  end.
Proof.
  intros Hs Hdown Hact Hmoved Hname Ht Ho. unfold startOnMove.
  rewrite Hs, Hdown, Hact, Hmoved, Hname. cbn [negb orb].
  change (interactions_list (fire (BeforeStart (SignalArg.interaction arg)) scope))
    with (interactions_list scope).
  rewrite Hs, Hname, Ht.
  change (interactables_get (fire (BeforeStart (SignalArg.interaction arg)) scope))
    with (interactables_get scope).
  rewrite Ho.
  change (withinInteractionLimit t (element s) (prepared s)
            (fire (BeforeStart (SignalArg.interaction arg)) scope))
    with (withinInteractionLimit t (element s) (prepared s) scope).
  destruct (manualStart o); [done|].
  by destruct (withinInteractionLimit _ _ _ _) as [[|]|].
Qed.

(** C7: when the pointer is not down, the session is active, no movement was
    recorded or nothing is prepared, [startOnMove] leaves the scope as it is;
    with the pointer down it is all the handler of the notification does.
    Otherwise, for the prepared target and its option bag for the prepared
    action: if [manualStart] is set or [withinInteractionLimit] now answers
    false, the session is stopped, which succeeds when the session has its
    element and leaves it idle without target; if neither, the session's
    start is invoked with the prepared action, the target and the element
    and then the cursor is refreshed, which succeeds when the session has
    its element and a cursor is defined for the action, leaving the session
    active on that target and element. *)
Theorem C7_startOnMove arg scope s :
  interactions_list scope !! SignalArg.interaction arg = Some s ->
  (pointerIsDown s = false \/ interacting s = true \/
   pointerWasMoved s = false \/ name_truthy (name (prepared s)) = false ->
   startOnMove arg scope = Some scope) /\
  (pointerIsDown s = true -> onMove arg scope = startOnMove arg scope) /\
  (pointerIsDown s = true -> interacting s = false ->
   pointerWasMoved s = true -> name_truthy (name (prepared s)) = true ->
   forall t o,
     interactable s = Some t ->
     options (interactables_get scope t) !! prop_key (name (prepared s))
       = Some o ->
     let i := SignalArg.interaction arg in
     let scope1 := fire (BeforeStart i) scope in
     (manualStart o = true \/
      withinInteractionLimit t (element s) (prepared s) scope = Some false ->
      startOnMove arg scope = interaction_stop i scope1 /\
      (is_Some (element s) -> is_Some (startOnMove arg scope)) /\
      (forall scope',
         startOnMove arg scope = Some scope' ->
         exists s',
           interactions_list scope' !! i = Some s' /\
           interacting s' = false /\ interactable s' = None /\
           element s' = None /\ name (prepared s') = None)) /\
     (manualStart o = false ->
      withinInteractionLimit t (element s) (prepared s) scope = Some true ->
      startOnMove arg scope =
        (let? scope2 := interaction_start i (prepared s) t (element s) scope1 in
         setInteractionCursor i scope2) /\
      (is_Some (element s) ->
       is_Some (cursorChecker o) \/
       is_Some (actions_getCursor scope !! prop_key (name (prepared s))) ->
       is_Some (startOnMove arg scope)) /\
      (forall scope',
         startOnMove arg scope = Some scope' ->
         exists s',
           interactions_list scope' !! i = Some s' /\
           interacting s' = true /\ interactable s' = Some t /\
           element s' = element s /\
           name (prepared s') = name (prepared s)))).
Proof.
  intros Hs. split; [|split].
  - intros H. unfold startOnMove. rewrite Hs.
    destruct H as [ -> | [ -> | [ -> | -> ] ] ]; simpl; try done.
    + by destruct (pointerIsDown s).
    + by destruct (pointerIsDown s), (interacting s).
    + by destruct (pointerIsDown s), (interacting s), (pointerWasMoved s).
  - intros Hdown. unfold onMove, prepareOnMove. rewrite Hs, Hdown.
    by destruct (negb _).
  - intros Hdown Hact Hmoved Hname t o Ht Ho i scope1.
    pose proof (startOnMove_ready arg scope s t o Hs Hdown Hact Hmoved Hname
                  Ht Ho) as Hrun.
    cbv zeta in Hrun. subst i scope1.
    split.
    + intros Hrej.
      assert (startOnMove arg scope
              = interaction_stop (SignalArg.interaction arg)
                  (fire (BeforeStart (SignalArg.interaction arg)) scope)) as Heq.
      { rewrite Hrun. destruct Hrej as [->| ->]; [done|].
        by destruct (manualStart o). }
      split; [exact Heq|]. rewrite Heq. split.
      * intros He. by apply (interaction_stop_total _ _ s).
      * intros scope'. apply interaction_stop_idle.
    + intros Hauto Hwithin.
      assert (startOnMove arg scope =
              (let? scope2 :=
                 interaction_start (SignalArg.interaction arg) (prepared s) t
                   (element s)
                   (fire (BeforeStart (SignalArg.interaction arg)) scope) in
               setInteractionCursor (SignalArg.interaction arg) scope2)) as Heq.
      { rewrite Hrun, Hauto, Hwithin. done. }
      split; [exact Heq|]. rewrite Heq. split.
      { intros He Hcursor. unfold interaction_start.
        change (interactions_list
                  (fire (BeforeStart (SignalArg.interaction arg)) scope))
          with (interactions_list scope).
        rewrite Hs.
        eapply setInteractionCursor_total;
          [by eapply with_session_lookup|reflexivity|exact He|exact Ho|
           exact Hcursor]. }
      intros scope'.
      destruct (interaction_start _ _ _ _ _) as [scope2|] eqn:E2; [|done].
      apply interaction_start_Some_inv in E2 as (s2 & Hs2 & ->).
      change (interactions_list
                (fire (BeforeStart (SignalArg.interaction arg)) scope))
        with (interactions_list scope) in Hs2.
      rewrite Hs in Hs2. injection Hs2 as <-.
      intros H. apply setInteractionCursor_sessions in H as (-> & _).
      eexists. split; [by eapply with_session_lookup|]. done.
Qed.

(** A session that holds no target is neither stopped nor started: the
    second test of [startOnMove] (line 129) only lets the signal be fired. *)
Lemma startOnMove_without_target arg scope s :
  interactions_list scope !! SignalArg.interaction arg = Some s ->
  pointerIsDown s = true -> interacting s = false ->
  pointerWasMoved s = true -> name_truthy (name (prepared s)) = true ->
  interactable s = None ->
  startOnMove arg scope
  = Some (fire (BeforeStart (SignalArg.interaction arg)) scope).
Proof.
  intros Hs Hdown Hact Hmoved Hname Ht. unfold startOnMove.
  rewrite Hs, Hdown, Hact, Hmoved, Hname. cbn [negb orb].
  change (interactions_list (fire (BeforeStart (SignalArg.interaction arg)) scope))
    with (interactions_list scope).
  by rewrite Hs, Hname, Ht.
Qed.

(** The drag of target 8 starts by itself: the session becomes active. *)
Lemma C7_startOnMove_witness :
  exists scope',
    startOnMove (arg_over child_of_parent) (scope_ready 8) = Some scope' /\
    interactions_list scope' =
      [mkSession "mouse" true true true drag (Some 8) (Some 2) None] /\
    AutoStart.cursorElement (autoStart scope') = Some 2 /\
    cursor_of scope' 2 = "move".
Proof.
  destruct (proj2 (proj2 (C7_startOnMove (arg_over child_of_parent)
                            (scope_ready 8) (ready_session 8) eq_refl))
              eq_refl eq_refl eq_refl eq_refl
              8 (options_with Infinity (Finite 1) false) eq_refl eq_refl)
    as [_ Hstart].
  destruct (Hstart eq_refl eq_refl) as [Heq _].
  eexists. split; [exact Heq|]. by repeat split.
Defined.

(** The drag of target 7 needs a manual start: the session is stopped. *)
Example startOnMove_manual_start_stops :
  exists scope',
    startOnMove (arg_over child_of_parent) (scope_ready 7) = Some scope' /\
    interactions_list scope' =
      [mkSession "mouse" true true false (mkAction None None) None None None] /\
    signals_fired scope' = [BeforeStart 0].
Proof. eexists. by repeat split. Qed.

(** * Further properties of the admission check *)

Lemma count_ge_false_mono (a b : nat) (cap : Num) :
  a <= b -> count_ge b cap = false -> count_ge a cap = false.
Proof.
  intros Hab Hb. destruct (count_ge a cap) eqn:Ha; [|done].
  by rewrite (count_ge_mono a b cap Hab Ha) in Hb.
Qed.

(** A cap some counter stays below is truthy and positive, NaN apart. *)
Lemma count_ge_false_positive (k : nat) (cap : Num) :
  count_ge k cap = false -> cap <> NaN ->
  num_truthy cap = true /\ num_gt0 cap = true.
Proof.
  destruct cap as [| |q|]; simpl; try done.
  intros Hk _.
  assert (0 < q)%Q as Hq.
  { apply Qnot_le_lt. intros Hle.
    assert (Qle_bool q (inject_Z (Z.of_nat k)) = true) as E; [|congruence].
    apply Qle_bool_iff. eapply Qle_trans; [exact Hle|].
    change 0%Q with (inject_Z 0). rewrite <- Zle_Qle. lia. }
  split.
  - destruct (Qeq_bool q 0) eqn:E; [|done].
    apply Qeq_bool_iff in E. rewrite E in Hq. by apply Qlt_irrefl in Hq.
  - destruct (Qle_bool q 0) eqn:E; [|done].
    apply Qle_bool_iff in E. exfalso. by eapply Qlt_not_le.
Qed.

Lemma within_Some_true_inv target el action scope :
  withinInteractionLimit target el action scope = Some true ->
  exists o c,
    options (interactables_get scope target) !! prop_key (name action) = Some o /\
    loop target el action (max o) (maxPerElement o)
         (AutoStart.maxInteractions (autoStart scope)) zero_counters
         (interactions_list scope) = Continue c /\
    num_gt0 (AutoStart.maxInteractions (autoStart scope)) = true /\
    num_truthy (max o) && num_truthy (maxPerElement o)
    && num_truthy (AutoStart.maxInteractions (autoStart scope)) = true.
Proof.
  unfold withinInteractionLimit.
  destruct (options _ !! _) as [o|]; [|done].
  destruct (_ && _) eqn:Et; [|done]. cbn [negb].
  destruct (loop _ _ _ _ _ _ _ _) as [b|c] eqn:E.
  - intros [= ->]. by apply loop_returns_false in E.
  - intros [= H]. by exists o, c.
Qed.

Section TargetCap.
Variables (target : InteractableRef) (el : option Element)
          (action : ActionProps).
Variables (maxActions maxPerEl autoStartMax : Num).

Local Abbreviation body :=
  (loop_body target el action maxActions maxPerEl autoStartMax).
Local Abbreviation scan :=
  (loop target el action maxActions maxPerEl autoStartMax).

(** A scan that does not return has seen fewer sessions on the target with
    the action name than [maxActions]. *)
Lemma loop_continue_below_target l : forall c c',
  scan c l = Continue c' ->
  1 <= target_action_count target action l ->
  count_ge (interactableCount c + target_action_count target action l)
           maxActions = false.
Proof.
  unfold target_action_count.
  induction l as [|s l IH]; intros c c'; simpl.
  - unfold count_sessions; simpl. lia.
  - destruct (body c s) as [|c1] eqn:E; [done|]. intros H.
    rewrite count_sessions_cons.
    pose proof (loop_body_counters _ _ _ _ _ _ _ _ _ E) as (_ & E2 & _).
    destruct (interacting s && same_target target s && same_action action s)
      eqn:Es.
    + intros _.
      assert (count_ge (interactableCount c + 1) maxActions = false) as Hlow.
      { revert E. unfold loop_body.
        apply andb_prop in Es as [Es Ea]. apply andb_prop in Es as [Ei Et].
        unfold same_target, same_action in *. rewrite Ei, Et, Ea. simpl.
        destruct (count_ge _ autoStartMax); [done|].
        by destruct (count_ge _ maxActions). }
      destruct (count_sessions _ l) as [|n] eqn:En.
      * by rewrite Nat.add_0_r.
      * replace (interactableCount c + (1 + S n))
          with (interactableCount c1 + S n) by lia.
        eapply IH; [exact H|lia].
    + intros Hn. replace (interactableCount c + (0 + count_sessions _ l))
        with (interactableCount c1 + count_sessions
                (fun s => interacting s && same_target target s
                          && same_action action s) l) by lia.
      eapply IH; [exact H|]. simpl in Hn. lia.
Qed.

(** Below the three caps at the end of the list, no iteration returns. *)
Lemma loop_passes l : forall c,
  count_ge (activeInteractions c + active_count l) autoStartMax = false ->
  count_ge (interactableCount c + target_action_count target action l)
           maxActions = false ->
  count_ge (elementCount c + target_element_count target el l) maxPerEl
    = false ->
  exists c', scan c l = Continue c'.
Proof.
  unfold active_count, target_action_count, target_element_count.
  induction l as [|s l IH]; intros c; simpl; [by eexists|].
  rewrite !count_sessions_cons. intros Ha Ht He.
  destruct (body c s) as [b|c1] eqn:E.
  - exfalso. revert E Ha Ht He.
    unfold loop_body, same_target, same_element, same_action.
    destruct (interacting s); cbn [negb andb]; [|done].
    intros E Ha. revert E.
    assert (count_ge (S (activeInteractions c)) autoStartMax = false) as ->.
    { eapply count_ge_false_mono; [|exact Ha]. lia. }
    destruct (bool_decide (interactable s = Some target)); cbn [negb andb];
      [|done].
    destruct (name_eqb _ _); cbn [andb]; intros E Ht; revert E.
    + assert (count_ge (interactableCount c + 1) maxActions = false) as ->.
      { eapply count_ge_false_mono; [|exact Ht]. lia. }
      destruct (bool_decide (element s = el)); [|done].
      intros E He. revert E.
      assert (count_ge (S (elementCount c)) maxPerEl = false) as ->; [|done].
      eapply count_ge_false_mono; [|exact He]. lia.
    + assert (count_ge (interactableCount c + 0) maxActions = false) as ->.
      { eapply count_ge_false_mono; [|exact Ht]. lia. }
      by destruct (bool_decide (element s = el)).
  - pose proof (loop_body_counters _ _ _ _ _ _ _ _ _ E) as (E1 & E2 & E3).
    apply IH.
    + eapply count_ge_false_mono; [|exact Ha]. lia.
    + eapply count_ge_false_mono; [|exact Ht]. lia.
    + eapply count_ge_false_mono; [|exact He]. lia.
Qed.

(** Iterations are monotone in the counters. *)
Lemma loop_body_mono c1 c2 c2' s :
  counters_le c1 c2 -> body c2 s = Continue c2' ->
  exists c1', body c1 s = Continue c1' /\ counters_le c1' c2'.
Proof.
  intros (Ha & Ht & He). unfold loop_body.
  destruct (interacting s); cbn [negb].
  2:{ intros [= <-]. by eexists. }
  destruct (count_ge (S (activeInteractions c2)) autoStartMax) eqn:E2; [done|].
  rewrite (count_ge_false_mono (S (activeInteractions c1))
             (S (activeInteractions c2)) _ ltac:(lia) E2).
  destruct (bool_decide (interactable s = Some target)); cbn [negb].
  2:{ intros [= <-]. eexists. split; [done|]. unfold counters_le; simpl. lia. }
  destruct (count_ge (interactableCount c2 + _) maxActions) eqn:E3; [done|].
  rewrite (count_ge_false_mono
             (interactableCount c1 +
              (if name_eqb (name (prepared s)) (name action) then 1 else 0))
             (interactableCount c2 +
              (if name_eqb (name (prepared s)) (name action) then 1 else 0))
             _ ltac:(lia) E3).
  destruct (bool_decide (element s = el)).
  - destruct (name_eqb (name (prepared s)) (name action)); cbn [andb].
    + destruct (count_ge (S (elementCount c2)) maxPerEl) eqn:E4; [done|].
      rewrite (count_ge_false_mono (S (elementCount c1)) (S (elementCount c2))
                 _ ltac:(lia) E4).
      intros [= <-]. eexists. split; [done|]. unfold counters_le; simpl. lia.
    + intros [= <-]. eexists. split; [done|]. unfold counters_le; simpl. lia.
  - intros [= <-]. eexists. split; [done|]. unfold counters_le; simpl. lia.
Qed.

Lemma loop_body_grows c c' s : body c s = Continue c' -> counters_le c c'.
Proof.
  intros E. apply loop_body_counters in E as (E1 & E2 & E3).
  unfold counters_le. lia.
Qed.

(** A scan that passes a list passes each of its sublists. *)
Lemma loop_sublist l1 l2 :
  sublist l1 l2 ->
  forall c1 c2 c2',
    counters_le c1 c2 -> scan c2 l2 = Continue c2' ->
    exists c1', scan c1 l1 = Continue c1' /\ counters_le c1' c2'.
Proof.
  induction 1 as [|s l1 l2 Hsub IH|s l1 l2 Hsub IH]; intros c1 c2 c2' Hle; simpl.
  - intros [= <-]. by eexists.
  - destruct (body c2 s) as [|c2a] eqn:E2; [done|].
    destruct (loop_body_mono _ _ _ _ Hle E2) as (c1a & -> & Hle').
    by apply IH.
  - destruct (body c2 s) as [|c2a] eqn:E2; [done|].
    apply IH. apply loop_body_grows in E2.
    unfold counters_le in *. lia.
Qed.

End TargetCap.

(** With the target cap and the global cap unbounded, only a session on the
    target and element with the action name can make the scan return. *)
Lemma loop_unbounded_but_element target el action maxPerEl l : forall c,
  target_element_action_count target el action l = 0 ->
  exists c', loop target el action Infinity maxPerEl Infinity c l = Continue c'.
Proof.
  unfold target_element_action_count.
  induction l as [|s l IH]; intros c; simpl; [by eexists|].
  rewrite count_sessions_cons.
  unfold loop_body, same_target, same_element, same_action.
  destruct (interacting s); cbn [negb andb count_ge]; [|by apply IH].
  destruct (bool_decide (interactable s = Some target)); cbn [negb andb];
    [|by apply IH].
  destruct (bool_decide (element s = el)); cbn [andb]; [|by apply IH].
  destruct (name_eqb _ _); cbn [andb]; [lia|by apply IH].
Qed.


(** The per-target cap: the call answers false once the active sessions on
    the target with the candidate's action name have reached [max]. *)
Theorem within_rejects_at_target_cap target el action scope o :
  options (interactables_get scope target) !! prop_key (name action) = Some o ->
  1 <= target_action_count target action (interactions_list scope) ->
  count_ge (target_action_count target action (interactions_list scope))
           (max o) = true ->
  withinInteractionLimit target el action scope = Some false.
Proof.
  intros Ho Hpos Hge. unfold withinInteractionLimit. rewrite Ho.
  destruct (negb _); [done|].
  destruct (loop _ _ _ _ _ _ _ _) as [b|c] eqn:E.
  - f_equal. by eapply loop_returns_false.
  - pose proof (loop_continue_below_target _ _ _ _ _ _ _ _ _ E Hpos) as H.
    simpl in H. congruence.
Qed.

Lemma within_rejects_at_target_cap_witness :
  withinInteractionLimit 7 (Some 3) drag scope_two_drags = Some false.
Proof.
  apply (within_rejects_at_target_cap 7 (Some 3) drag scope_two_drags
           (options_with (Finite 2) Infinity false) eq_refl).
  - vm_compute. lia.
  - reflexivity.
Defined.

(** Admission below the caps: when none of the three caps is NaN and the
    active sessions, those on the target with the action name, and those on
    the target and element are each fewer than their cap, the call answers
    true. *)
Theorem within_accepts_below_caps target el action scope o :
  options (interactables_get scope target) !! prop_key (name action) = Some o ->
  max o <> NaN -> maxPerElement o <> NaN ->
  AutoStart.maxInteractions (autoStart scope) <> NaN ->
  count_ge (active_count (interactions_list scope))
           (AutoStart.maxInteractions (autoStart scope)) = false ->
  count_ge (target_action_count target action (interactions_list scope))
           (max o) = false ->
  count_ge (target_element_count target el (interactions_list scope))
           (maxPerElement o) = false ->
  withinInteractionLimit target el action scope = Some true.
Proof.
  intros Ho N1 N2 N3 Ha Ht He. unfold withinInteractionLimit. rewrite Ho.
  destruct (count_ge_false_positive _ _ Ha N3) as [-> ->].
  destruct (count_ge_false_positive _ _ Ht N1) as [-> _].
  destruct (count_ge_false_positive _ _ He N2) as [-> _].
  cbn [andb negb].
  by destruct (loop_passes target el action (max o) (maxPerElement o)
                 (AutoStart.maxInteractions (autoStart scope))
                 (interactions_list scope) zero_counters Ha Ht He) as [c ->].
Qed.

Lemma within_accepts_below_caps_witness :
  withinInteractionLimit 7 (Some 2) drag scope_one_resize = Some true.
Proof.
  by apply (within_accepts_below_caps 7 (Some 2) drag scope_one_resize
              (perAction_defaults true) eq_refl).
Defined.

(** Fewer sessions never turn an admission into a rejection: a candidate
    admitted against a list is admitted against each of its sublists. *)
Theorem within_sublist target el action scope l :
  sublist l (interactions_list scope) ->
  withinInteractionLimit target el action scope = Some true ->
  withinInteractionLimit target el action (with_interactions l scope)
  = Some true.
Proof.
  intros Hsub H.
  apply within_Some_true_inv in H as (o & c & Ho & Hloop & Hpos & Htruthy).
  unfold withinInteractionLimit.
  change (interactables_get (with_interactions l scope))
    with (interactables_get scope).
  change (autoStart (with_interactions l scope)) with (autoStart scope).
  change (interactions_list (with_interactions l scope)) with l.
  rewrite Ho, Htruthy. cbn [negb].
  destruct (loop_sublist target el action (max o) (maxPerElement o)
              (AutoStart.maxInteractions (autoStart scope)) _ _ Hsub
              zero_counters zero_counters c) as (c1 & -> & _);
    [by unfold counters_le|exact Hloop|].
  by rewrite Hpos.
Qed.

Lemma within_sublist_witness :
  withinInteractionLimit 7 (Some 2) drag
    (with_interactions [idle_session "mouse"] scope_one_resize) = Some true.
Proof.
  apply (within_sublist 7 (Some 2) drag scope_one_resize [idle_session "mouse"]).
  - apply sublist_cons. apply sublist_skip. apply sublist_nil.
  - reflexivity.
Defined.

(** The default options ([max] unbounded, [maxPerElement] 1) under the
    default global cap: a candidate is admitted exactly when no session is
    active on its target and element with its action name. *)
Theorem within_default_options target el action scope o :
  options (interactables_get scope target) !! prop_key (name action) = Some o ->
  max o = Infinity -> maxPerElement o = Finite 1 ->
  AutoStart.maxInteractions (autoStart scope) = Infinity ->
  withinInteractionLimit target el action scope =
  Some (bool_decide
          (target_element_action_count target el action
             (interactions_list scope) = 0)).
Proof.
  intros Ho Hmax Hper Hcap. case_bool_decide as Hn.
  - unfold withinInteractionLimit. rewrite Ho, Hmax, Hper, Hcap.
    cbn [num_truthy andb negb].
    by destruct (loop_unbounded_but_element target el action (Finite 1)
                   (interactions_list scope) zero_counters Hn) as [c ->].
  - unfold withinInteractionLimit. rewrite Ho.
    destruct (negb _); [done|].
    rewrite loop_rejects_per_element; [done|lia|].
    rewrite Hper. eapply (count_ge_mono 1); [lia|done].
Qed.

Lemma within_default_options_witness :
  withinInteractionLimit 7 (Some 1) drag scope_one_resize = Some true.
Proof.
  by rewrite (within_default_options 7 (Some 1) drag scope_one_resize
                (perAction_defaults true) eq_refl eq_refl eq_refl eq_refl).
Defined.

(** * Further properties of validation and resolution *)

Lemma within_is_Some target el action scope o :
  options (interactables_get scope target) !! prop_key (name action) = Some o ->
  is_Some (withinInteractionLimit target el action scope).
Proof.
  intros Ho. unfold withinInteractionLimit. rewrite Ho.
  destruct (negb _); [done|]. by destruct (loop _ _ _ _ _ _ _ _).
Qed.

(** [validateAction] in full: it raises exactly when the filters accept a
    candidate whose option bag for the action is missing; it never answers an
    action other than the one it was given; and it answers that action
    exactly when the bag exists, the filters accept, the action is enabled
    and [withinInteractionLimit] answers true. *)
Lemma validateAction_cases action target el eventTarget scope :
  (validateAction action target el eventTarget scope = None <->
   options (interactables_get scope target) !! prop_key (name action) = None /\
   testIgnoreAllow (interactables_get scope target) None el eventTarget = true) /\
  (forall action',
     validateAction action target el eventTarget scope = Some (Some action') ->
     action' = action) /\
  (validateAction action target el eventTarget scope = Some (Some action) <->
   exists o,
     options (interactables_get scope target) !! prop_key (name action)
       = Some o /\
     testIgnoreAllow (interactables_get scope target) (Some o) el eventTarget
       = true /\
     enabled o = true /\
     withinInteractionLimit target el action scope = Some true).
Proof.
  split; [|split].
  - unfold validateAction.
    destruct (options _ !! _) as [o|] eqn:Ho.
    + split; [|by intros [? _]].
      destruct (testIgnoreAllow _ _ _ _); [|done].
      destruct (enabled o); [|done].
      destruct (within_is_Some target el action scope o Ho) as [b ->].
      by destruct b.
    + destruct (testIgnoreAllow _ _ _ _); [done|].
      split; [done|]. by intros [_ ?].
  - intros action' H. by apply validateAction_Some in H as [-> _].
  - split.
    + intros H. by apply validateAction_Some in H as [_ H].
    + intros (o & Ho & Ht & He & Hw). unfold validateAction.
      by rewrite Ho, Ht, He, Hw.
Qed.

Section FirstMatch.
Variables (interaction : Session) (pointer : Pointer) (event : PointerEvent).
Variables (eventTarget : Node) (scope : Scope).

Local Abbreviation rejected :=
  (candidate_rejected interaction pointer event eventTarget scope).

Lemma validateMatches_from_first matchElements rest : forall i info,
  validateMatches_from interaction pointer event eventTarget scope
                       matchElements rest i = Some info ->
  (info = ActionInfo.none /\
   forall j t, rest !! j = Some t -> rejected t (matchElements !! (i + j))) \/
  exists a t j,
    info = ActionInfo.mk (Some a) (Some t) (matchElements !! (i + j)) /\
    rest !! j = Some t /\
    getAction (interactables_get scope t) pointer event interaction
              (matchElements !! (i + j)) = Some a /\
    validateAction a t (matchElements !! (i + j)) eventTarget scope
      = Some (Some a) /\
    forall k t', k < j -> rest !! k = Some t' ->
                 rejected t' (matchElements !! (i + k)).
Proof.
  induction rest as [|t rest IH]; intros i info; simpl.
  - intros [= <-]. left. split; [done|]. intros j t Hj. by destruct j.
  - assert (rejected t (matchElements !! i) ->
            validateMatches_from interaction pointer event eventTarget scope
                                 matchElements rest (S i) = Some info ->
            (info = ActionInfo.none /\
             forall j t', (t :: rest) !! j = Some t' ->
                          rejected t' (matchElements !! (i + j))) \/
            exists a t' j,
              info = ActionInfo.mk (Some a) (Some t')
                                   (matchElements !! (i + j)) /\
              (t :: rest) !! j = Some t' /\
              getAction (interactables_get scope t') pointer event interaction
                        (matchElements !! (i + j)) = Some a /\
              validateAction a t' (matchElements !! (i + j)) eventTarget scope
                = Some (Some a) /\
              forall k t'', k < j -> (t :: rest) !! k = Some t'' ->
                            rejected t'' (matchElements !! (i + k))) as Hnext.
    { intros Hrej H.
      apply IH in H as [[-> Hall]|(a & t' & j & H1 & H2 & H3 & H4 & Hall)].
      - left. split; [done|]. intros [|j] t' Hj.
        + injection Hj as <-. by rewrite Nat.add_0_r.
        + replace (i + S j) with (S i + j) by lia. by apply Hall.
      - right. exists a, t', (S j).
        replace (i + S j) with (S i + j) by lia. repeat split; try done.
        intros [|k] t'' Hk Hlook.
        + injection Hlook as <-. by rewrite Nat.add_0_r.
        + replace (i + S k) with (S i + k) by lia. apply Hall; [lia|done]. }
    destruct (getAction _ _ _ _ _) as [matchAction|] eqn:Hget;
      [|apply Hnext; by left].
    destruct (validateAction _ _ _ _ _) as [[action|]|] eqn:Hval; [| |done].
    + intros [= <-]. right.
      pose proof (validateAction_Some _ _ _ _ _ _ Hval) as [-> _].
      exists matchAction, t, 0. rewrite Nat.add_0_r.
      repeat split; try done. intros k t'' Hk. lia.
    + apply Hnext. right. by exists matchAction.
Qed.
End FirstMatch.

(** First match wins: [validateMatches] answers the first candidate, in the
    order of the list, whose proposed action is validated, every candidate
    before it having proposed nothing or failed validation; it answers the
    none result only when every candidate did. *)
Theorem validateMatches_first_match
    interaction pointer event eventTarget scope matches matchElements info :
  validateMatches interaction pointer event eventTarget scope
                  matches matchElements = Some info ->
  (info = ActionInfo.none /\
   forall j t, matches !! j = Some t ->
               candidate_rejected interaction pointer event eventTarget scope
                                  t (matchElements !! j)) \/
  exists a t j,
    info = ActionInfo.mk (Some a) (Some t) (matchElements !! j) /\
    matches !! j = Some t /\
    getAction (interactables_get scope t) pointer event interaction
              (matchElements !! j) = Some a /\
    validateAction a t (matchElements !! j) eventTarget scope = Some (Some a) /\
    forall k t', k < j -> matches !! k = Some t' ->
                 candidate_rejected interaction pointer event eventTarget scope
                                    t' (matchElements !! k).
Proof.
  unfold validateMatches. intros H.
  by apply validateMatches_from_first in H.
Qed.

(** Target 7 is taken on the element, so target 8, second in the list, wins. *)
Lemma validateMatches_first_match_witness :
  exists a t j,
    ActionInfo.mk (Some drag) (Some 8) (Some 1)
    = ActionInfo.mk (Some a) (Some t) ([1; 1] !! j) /\
    j = 1 /\
    candidate_rejected (idle_session "mouse") 0 0 (Elem 1 NotAnElement)
                       scope_first_taken 7 (Some 1).
Proof.
  destruct (validateMatches_first_match
              (idle_session "mouse") 0 0 (Elem 1 NotAnElement) scope_first_taken
              [7; 8] [1; 1] (ActionInfo.mk (Some drag) (Some 8) (Some 1))
              eq_refl) as [[H _]|(a & t & j & Hinfo & Hj & _ & _ & Hbefore)];
    [done|].
  assert (j = 1) as ->.
  { destruct j as [|[|j]]; [|done|done].
    injection Hinfo as <- <-. done. }
  exists a, t, 1. repeat split; [exact Hinfo|].
  apply (Hbefore 0 7); [lia|done].
Defined.

(** * What a notification does to the sessions *)

Lemma count_sessions_insert p (l : list Session) : forall i s s',
  l !! i = Some s ->
  count_sessions p (<[i := s']> l) + (if p s then 1 else 0)
  = count_sessions p l + (if p s' then 1 else 0).
Proof.
  induction l as [|x l IH]; intros [|i] s s'; simpl; try done.
  - intros [= ->]. rewrite !count_sessions_cons. lia.
  - intros H. rewrite !count_sessions_cons. specialize (IH i s s' H). lia.
Qed.

Lemma clearCursorOnStop_frame i scope scope' :
  clearCursorOnStop i scope = Some scope' ->
  interactions_list scope' = interactions_list scope /\
  interactables_get scope' = interactables_get scope /\
  AutoStart.maxInteractions (autoStart scope')
    = AutoStart.maxInteractions (autoStart scope).
Proof.
  rewrite clearCursorOnStop_unfold.
  destruct (interactions_list scope !! i) as [s|]; [|done].
  intros H. by apply clear_previous_sessions in H as (? & ? & _ & ?).
Qed.

Lemma prepare_frame i info scope scope' :
  prepare i info scope = Some scope' ->
  interactables_get scope' = interactables_get scope /\
  AutoStart.maxInteractions (autoStart scope')
    = AutoStart.maxInteractions (autoStart scope).
Proof.
  rewrite prepare_unfold.
  destruct (interactions_list scope !! i) as [s|]; [|done].
  destruct (clear_previous s scope) as [scope1|] eqn:H1; [|done].
  destruct (setInteractionCursor _ _) as [scope2|] eqn:H2; [|done].
  intros [= <-].
  apply clear_previous_sessions in H1 as (_ & R1 & _ & M1).
  apply setInteractionCursor_sessions in H2 as (_ & R2 & _ & M2).
  simpl in *. by rewrite R2, M2.
Qed.

(** The list after [startOnMove]: unchanged, or the session of the
    notification replaced by an idle session or by the started one. *)
Lemma startOnMove_step arg scope scope' s :
  interactions_list scope !! SignalArg.interaction arg = Some s ->
  startOnMove arg scope = Some scope' ->
  interactables_get scope' = interactables_get scope /\
  AutoStart.maxInteractions (autoStart scope')
    = AutoStart.maxInteractions (autoStart scope) /\
  (interactions_list scope' = interactions_list scope \/
   exists s',
     interactions_list scope'
       = <[SignalArg.interaction arg := s']> (interactions_list scope) /\
     pointerType s' = pointerType s /\
     (interacting s' = false \/ started_from scope s s')).
Proof.
  intros Hs. unfold startOnMove. rewrite Hs.
  destruct (pointerIsDown s) eqn:Hdown; cbn [negb orb];
    [|intros [= <-]; by repeat split; try left].
  destruct (interacting s) eqn:Hact; cbn [negb orb];
    [intros [= <-]; by repeat split; try left|].
  destruct (pointerWasMoved s) eqn:Hmoved; cbn [negb orb];
    [|intros [= <-]; by repeat split; try left].
  destruct (name_truthy (name (prepared s))) eqn:Hname; cbn [negb];
    [|intros [= <-]; by repeat split; try left].
  change (interactions_list (fire (BeforeStart (SignalArg.interaction arg)) scope))
    with (interactions_list scope).
  rewrite Hs, Hname.
  destruct (interactable s) as [t|] eqn:Ht;
    [|intros [= <-]; by repeat split; try left].
  change (interactables_get (fire (BeforeStart (SignalArg.interaction arg)) scope))
    with (interactables_get scope).
  destruct (options _ !! _) as [o|] eqn:Ho; [|done].
  change (withinInteractionLimit t (element s) (prepared s)
            (fire (BeforeStart (SignalArg.interaction arg)) scope))
    with (withinInteractionLimit t (element s) (prepared s) scope).
  assert (forall scope',
            interaction_stop (SignalArg.interaction arg)
              (fire (BeforeStart (SignalArg.interaction arg)) scope)
            = Some scope' ->
            interactables_get scope' = interactables_get scope /\
            AutoStart.maxInteractions (autoStart scope')
              = AutoStart.maxInteractions (autoStart scope) /\
            (interactions_list scope' = interactions_list scope \/
             exists s',
               interactions_list scope'
                 = <[SignalArg.interaction arg := s']> (interactions_list scope) /\
               pointerType s' = pointerType s /\
               (interacting s' = false \/ started_from scope s s'))) as Hstop.
  { intros sc H.
    apply interaction_stop_Some_inv in H as (scope1 & s1 & H1 & Hs1 & ->).
    apply clearCursorOnStop_frame in H1 as (L1 & R1 & M1).
    simpl in L1. rewrite L1, Hs in Hs1. injection Hs1 as <-.
    simpl. rewrite L1, R1, M1. repeat split. right.
    eexists. split; [reflexivity|]. split; [done|by left]. }
  destruct (manualStart o) eqn:Hm; [apply Hstop|].
  destruct (withinInteractionLimit _ _ _ _) as [[|]|] eqn:Hw;
    [|apply Hstop|done].
  cbn [negb]. unfold interaction_start.
  change (interactions_list (fire (BeforeStart (SignalArg.interaction arg)) scope))
    with (interactions_list scope).
  rewrite Hs. intros H.
  apply setInteractionCursor_sessions in H as (L & R & _ & M).
  simpl in *. rewrite L, R, M. repeat split. right.
  eexists. split; [reflexivity|]. split; [done|right].
  repeat split; try done. by exists t, o.
Qed.

(** The list after any notification. *)
Lemma handle_step n scope scope' :
  handle n scope = Some scope' ->
  interactables_get scope' = interactables_get scope /\
  (notification_session n <> None ->
   AutoStart.maxInteractions (autoStart scope')
     = AutoStart.maxInteractions (autoStart scope)) /\
  (interactions_list scope' = interactions_list scope \/
   exists i s s',
     notification_session n = Some i /\
     interactions_list scope !! i = Some s /\
     interactions_list scope' = <[i := s']> (interactions_list scope) /\
     pointerType s' = pointerType s /\
     (interacting s' = false \/
      (exists arg, n = Move arg) /\ started_from scope s s')).
Proof.
  assert (forall arg s scope',
            interactions_list scope !! SignalArg.interaction arg = Some s ->
            interacting s = false ->
            (let? actionInfo :=
               getActionInfo s (SignalArg.pointer arg) (SignalArg.event arg)
                             (SignalArg.eventTarget arg) scope in
             prepare (SignalArg.interaction arg) actionInfo scope)
            = Some scope' ->
            interactables_get scope' = interactables_get scope /\
            AutoStart.maxInteractions (autoStart scope')
              = AutoStart.maxInteractions (autoStart scope) /\
            exists s',
              interactions_list scope'
                = <[SignalArg.interaction arg := s']> (interactions_list scope) /\
              pointerType s' = pointerType s /\ interacting s' = false /\
              pointerIsDown s' = pointerIsDown s) as Hprep.
  { intros arg s sc Hs Hact H.
    destruct (getActionInfo _ _ _ _ _) as [info|]; [|done].
    pose proof (prepare_frame _ _ _ _ H) as (R & M).
    apply prepare_sessions in H as (s0 & Hs0 & L & _).
    rewrite Hs in Hs0. injection Hs0 as <-.
    repeat split; try done. eexists. split; [exact L|]. by repeat split. }
  destruct n as [arg|arg|i|v]; simpl.
  - unfold prepareOnDown.
    destruct (interactions_list scope !! _) as [s|] eqn:Hs; [|done].
    destruct (interacting s) eqn:Hact; [intros [= <-]; by repeat split; try left|].
    intros H. destruct (Hprep arg s scope' Hs Hact H) as (R & M & s' & L & P & A & _).
    repeat split; try done. right. exists (SignalArg.interaction arg), s, s'.
    repeat split; try done. by left.
  - unfold onMove.
    destruct (prepareOnMove arg scope) as [scope1|] eqn:E1; [|done].
    revert E1. unfold prepareOnMove.
    destruct (interactions_list scope !! _) as [s|] eqn:Hs; [|done].
    destruct (negb (String.eqb (pointerType s) "mouse") || pointerIsDown s
              || interacting s) eqn:Hguard.
    + intros [= <-] H.
      destruct (startOnMove_step arg scope scope' s Hs H) as (R & M & Hl).
      repeat split; try done.
      destruct Hl as [Hl|(s' & L & P & Hcase)]; [by left|right].
      exists (SignalArg.interaction arg), s, s'. repeat split; try done.
      destruct Hcase as [?|?]; [by left|right]. split; [by eexists|done].
    + intros H1 H2.
      apply orb_false_iff in Hguard as [Hguard Hact].
      apply orb_false_iff in Hguard as [_ Hdown].
      destruct (Hprep arg s scope1 Hs Hact H1)
        as (R & M & s' & L & P & A & D).
      assert (scope' = scope1) as ->.
      { revert H2. unfold startOnMove. rewrite L.
        rewrite list_lookup_insert_eq by (by eapply lookup_lt_Some).
        rewrite D, Hdown. by intros [= <-]. }
      repeat split; try done. right.
      exists (SignalArg.interaction arg), s, s'. repeat split; try done.
      by left.
  - intros H. apply clearCursorOnStop_frame in H as (L & R & M).
    repeat split; try done. by left.
  - intros [= <-]. split; [by destruct v|]. split; [done|].
    left. by destruct v.
Qed.

(** Isolation: a notification keeps the length of the session list, the
    registry of targets, and every session other than its own; a call of
    [maxInteractions] keeps all sessions. *)
Theorem handle_isolation n scope scope' :
  handle n scope = Some scope' ->
  length (interactions_list scope') = length (interactions_list scope) /\
  interactables_get scope' = interactables_get scope /\
  forall j, notification_session n <> Some j ->
            interactions_list scope' !! j = interactions_list scope !! j.
Proof.
  intros H. apply handle_step in H as (R & _ & [L|(i & s & s' & Hn & Hs & L & _)]).
  - rewrite L. by repeat split.
  - rewrite L, length_insert. repeat split; [done|].
    intros j Hj. apply list_lookup_insert_ne. congruence.
Qed.

Lemma handle_isolation_witness :
  exists scope',
    handle (Down (arg_of 0 (Elem 1 NotAnElement))) scope_two_pointers
    = Some scope' /\
    interactions_list scope' !! 1 = Some pressed_session.
Proof.
  eexists. split; [reflexivity|].
  destruct (handle_isolation (Down (arg_of 0 (Elem 1 NotAnElement)))
              scope_two_pointers _ eq_refl) as (_ & _ & H).
  by rewrite H.
Defined.

Lemma activation_inv n scope scope' j sj sj' :
  handle n scope = Some scope' ->
  interactions_list scope !! j = Some sj ->
  interactions_list scope' !! j = Some sj' ->
  interacting sj = false -> interacting sj' = true ->
  (exists arg, n = Move arg /\ SignalArg.interaction arg = j) /\
  started_from scope sj sj'.
Proof.
  intros H Hj Hj' Hidle Hact.
  apply handle_step in H as (_ & _ & [L|(i & s & s' & Hn & Hs & L & _ & Hcase)]).
  - rewrite L, Hj in Hj'. congruence.
  - rewrite L in Hj'. destruct (decide (i = j)) as [->|Hne].
    + rewrite list_lookup_insert_eq in Hj' by (by eapply lookup_lt_Some).
      injection Hj' as <-. rewrite Hj in Hs. injection Hs as <-.
      destruct Hcase as [Hf|[[arg ->] Hstart]]; [congruence|].
      split; [|done]. exists arg. split; [done|]. simpl in Hn. congruence.
    + rewrite list_lookup_insert_ne in Hj' by done.
      assert (Some sj = Some sj') as [= <-] by (rewrite <- Hj; exact Hj').
      congruence.
Qed.

(** A session becomes active only through a pointer-move of its own pointer,
    which is down and has moved, for a prepared action of its target that
    needs no manual start and is within the limits at that moment. *)
Theorem handle_activates_only_within_limits n scope scope' j sj sj' :
  handle n scope = Some scope' ->
  interactions_list scope !! j = Some sj ->
  interactions_list scope' !! j = Some sj' ->
  interacting sj = false -> interacting sj' = true ->
  (exists arg, n = Move arg /\ SignalArg.interaction arg = j) /\
  started_from scope sj sj'.
Proof. apply activation_inv. Qed.

Lemma handle_activates_only_within_limits_witness :
  started_from (scope_ready 8) (ready_session 8)
    (mkSession "mouse" true true true drag (Some 8) (Some 2) None).
Proof.
  apply (handle_activates_only_within_limits
           (Move (arg_over child_of_parent)) (scope_ready 8) _ 0
           (ready_session 8)
           (mkSession "mouse" true true true drag (Some 8) (Some 2) None)
           eq_refl eq_refl eq_refl eq_refl eq_refl).
Defined.

(** The global cap along a run: with the cap a natural [n] and no call of
    [maxInteractions], if at most [n] sessions are active before a run of
    notifications then at most [n] are after it. *)
Theorem run_respects_global_cap (n : nat) ns : forall scope scope',
  AutoStart.maxInteractions (autoStart scope) = num_of_nat n ->
  Forall (fun x => notification_session x <> None) ns ->
  active_count (interactions_list scope) <= n ->
  run ns scope = Some scope' ->
  active_count (interactions_list scope') <= n /\
  AutoStart.maxInteractions (autoStart scope') = num_of_nat n.
Proof.
  induction ns as [|x ns IH]; intros scope scope' Hcap Hns Hle; simpl.
  - by intros [= <-].
  - destruct (handle x scope) as [scope1|] eqn:Hx; [|done].
    apply Forall_cons in Hns as [Hx1 Hns].
    apply handle_step in Hx as (_ & M & Hl). specialize (M Hx1).
    apply IH; [congruence|done|].
    destruct Hl as [->|(i & s & s' & _ & Hs & -> & _ & Hcase)]; [done|].
    pose proof (count_sessions_insert interacting _ i s s' Hs) as Hcount.
    unfold active_count.
    destruct Hcase as [Hf|[_ Hstart]].
    + rewrite Hf in Hcount. unfold active_count in Hle. revert Hcount.
      unfold SessionRef in *. destruct (interacting s); lia.
    + destruct Hstart as (_ & _ & Hidle & _ & t & o & _ & _ & _ & Hw & Hact & _).
      rewrite Hidle, Hact in Hcount.
      apply within_Some_true_inv in Hw as (o' & c & _ & Hloop & Hpos & _).
      rewrite Hcap in Hloop, Hpos.
      assert (active_count (interactions_list scope) < n) as Hlt.
      { destruct (decide (1 <= active_count (interactions_list scope)))
          as [Hge|Hz].
        - pose proof (loop_continue_below_global _ _ _ _ _ _ _ _ _ Hloop Hge)
            as Hb.
          change (activeInteractions zero_counters) with 0 in Hb.
          rewrite Nat.add_0_l, count_ge_of_nat in Hb.
          apply bool_decide_eq_false in Hb. lia.
        - rewrite num_of_nat_gt0 in Hpos. apply bool_decide_eq_true in Hpos.
          lia. }
      unfold active_count in Hlt. unfold SessionRef in *. lia.
Qed.

(** Under a cap of one the second pointer is not started. *)
Lemma run_respects_global_cap_witness :
  exists scope',
    run [Down (arg_of 0 (Elem 1 NotAnElement));
         Move (arg_of 0 (Elem 1 NotAnElement));
         Down (arg_of 1 (Elem 2 NotAnElement));
         Move (arg_of 1 (Elem 2 NotAnElement))] scope_cap_one = Some scope' /\
    active_count (interactions_list scope') <= 1.
Proof.
  eexists. split; [vm_compute; reflexivity|].
  refine (proj1 (run_respects_global_cap 1
                   [Down (arg_of 0 (Elem 1 NotAnElement));
                    Move (arg_of 0 (Elem 1 NotAnElement));
                    Down (arg_of 1 (Elem 2 NotAnElement));
                    Move (arg_of 1 (Elem 2 NotAnElement))] scope_cap_one _
                   eq_refl _ _ _)).
  - repeat (apply List.Forall_cons; [discriminate|]). apply List.Forall_nil.
  - vm_compute. lia.
  - vm_compute. reflexivity.
Defined.

(** A session active on the target and element with the action name rejects
    the candidate whenever [maxPerElement] is at most 1. *)
Lemma within_rejects_same_triple target el action scope o s :
  options (interactables_get scope target) !! prop_key (name action) = Some o ->
  count_ge 1 (maxPerElement o) = true ->
  s ∈ interactions_list scope -> interacting s = true ->
  interactable s = Some target -> element s = el ->
  name (prepared s) = name action ->
  withinInteractionLimit target el action scope = Some false.
Proof.
  intros Ho Hone Hin Hact Ht He Hn.
  assert (1 <= target_element_action_count target el action
                 (interactions_list scope)) as Hpos.
  { apply count_sessions_pos. exists s. split; [done|].
    unfold same_target, same_element, same_action, name_eqb.
    rewrite Hact, Ht, He, Hn. by rewrite !bool_decide_eq_true_2. }
  unfold withinInteractionLimit. rewrite Ho.
  destruct (negb _); [done|].
  rewrite loop_rejects_per_element; [done|done|].
  by eapply (count_ge_mono 1).
Qed.

Lemma handle_keeps_exclusive n scope scope' :
  at_most_one_per_element scope ->
  exclusive_per_element (interactions_list scope) ->
  handle n scope = Some scope' ->
  exclusive_per_element (interactions_list scope').
Proof.
  intros Hone Hex H.
  apply handle_step in H as (_ & _ & [->|(i & s & s' & _ & Hs & -> & _ & Hcase)]);
    [done|].
  assert (i < length (interactions_list scope)) as Hlen
    by (by eapply lookup_lt_Some).
  assert (forall j sj t,
            j <> i -> interactions_list scope !! j = Some sj ->
            interacting s' = true -> interacting sj = true ->
            interactable s' = Some t -> interactable sj = Some t ->
            element s' = element sj ->
            name (prepared s') = name (prepared sj) -> False) as Hnew.
  { intros j sj t Hne Hj Hact' Hactj Ht' Htj He Hn.
    destruct Hcase as [Hf|[_ Hstart]]; [congruence|].
    destruct Hstart as (_ & _ & _ & _ & t0 & o & Ht0 & Ho & _ & Hw & _ & Ht0'
                        & He' & Hn').
    assert (t0 = t) as -> by congruence.
    rewrite (within_rejects_same_triple t (element s) (prepared s) scope o sj)
      in Hw; try done.
    - by eapply Hone.
    - by eapply list_elem_of_lookup_2.
    - congruence.
    - congruence. }
  intros a b sa sb t Hab Ha Hb Hacta Hactb Hta Htb He Hn.
  destruct (decide (a = i)) as [->|Hai].
  - rewrite list_lookup_insert_eq in Ha by done. injection Ha as <-.
    rewrite list_lookup_insert_ne in Hb by done.
    by eapply (Hnew b sb t).
  - rewrite list_lookup_insert_ne in Ha by done.
    destruct (decide (b = i)) as [->|Hbi].
    + rewrite list_lookup_insert_eq in Hb by done. injection Hb as <-.
      by eapply (Hnew a sa t).
    + rewrite list_lookup_insert_ne in Hb by done.
      by eapply (Hex a b sa sb t).
Qed.

(** Exclusivity along a run: when every option bag has [maxPerElement] at
    most 1 (the default is 1) and no two active sessions share target,
    element and action name, no run of notifications makes two do. *)
Theorem run_keeps_exclusive ns : forall scope scope',
  at_most_one_per_element scope ->
  exclusive_per_element (interactions_list scope) ->
  run ns scope = Some scope' ->
  exclusive_per_element (interactions_list scope').
Proof.
  induction ns as [|x ns IH]; intros scope scope' Hone Hex; simpl.
  - by intros [= <-].
  - destruct (handle x scope) as [scope1|] eqn:Hx; [|done].
    apply IH.
    + pose proof (handle_step _ _ _ Hx) as (R & _).
      unfold at_most_one_per_element. by rewrite R.
    + by eapply handle_keeps_exclusive.
Qed.

Lemma scope_two_pointers_one_per_element :
  at_most_one_per_element scope_two_pointers.
Proof.
  intros t k o. simpl. unfold target_with; simpl.
  destruct (decide (k = "drag")) as [->|Hd].
  - rewrite lookup_insert_eq. by intros [= <-].
  - rewrite lookup_insert_ne by done.
    destruct (decide (k = "resize")) as [->|Hr].
    + rewrite lookup_insert_eq. by intros [= <-].
    + by rewrite lookup_insert_ne, lookup_empty.
Qed.

(** The two pointers of [scope_two_pointers] end on different targets. *)
Lemma run_keeps_exclusive_witness :
  exists scope',
    run [Down (arg_of 0 (Elem 1 NotAnElement));
         Move (arg_of 0 (Elem 1 NotAnElement));
         Down (arg_of 1 (Elem 1 NotAnElement));
         Move (arg_of 1 (Elem 1 NotAnElement))] scope_two_pointers
    = Some scope' /\
    exclusive_per_element (interactions_list scope').
Proof.
  eexists. split; [vm_compute; reflexivity|].
  refine (run_keeps_exclusive
            [Down (arg_of 0 (Elem 1 NotAnElement));
             Move (arg_of 0 (Elem 1 NotAnElement));
             Down (arg_of 1 (Elem 1 NotAnElement));
             Move (arg_of 1 (Elem 1 NotAnElement))] scope_two_pointers _
            scope_two_pointers_one_per_element _ _).
  - intros i j si sj t Hij Hi Hj Hai.
    destruct i as [|[|i]]; simpl in Hi; [| |done];
      injection Hi as <-; done.
  - vm_compute. reflexivity.
Defined.

(** * Further properties of the cursor *)

Lemma no_new_glyph_refl scope : no_new_glyph scope scope.
Proof. split; [intros x|]; by left. Qed.

Lemma no_new_glyph_fire sig scope : no_new_glyph scope (fire sig scope).
Proof. exact (no_new_glyph_refl scope). Qed.

Lemma setCursor_empty_no_new_glyph elem scope scope' :
  setCursor elem "" scope = Some scope' -> no_new_glyph scope scope'.
Proof.
  intros H.
  destruct (setCursor_Some_inv _ _ _ _ H)
    as (e & -> & _ & _ & _ & _ & _ & _ & _ & Hce).
  destruct (setCursor_styles _ _ _ _ H) as (He & Hroot & Hother).
  split; [|by right].
  intros x. destruct (decide (x = e)) as [->|Hne]; [by right|].
  destruct (decide (x = documentElement scope e)) as [->|Hnr]; [by right|].
  rewrite (Hother x Hne Hnr). case_bool_decide; [by right|by left].
Qed.

Lemma clear_previous_no_new_glyph s scope scope' :
  clear_previous s scope = Some scope' -> no_new_glyph scope scope'.
Proof.
  intros H. apply clear_previous_cases in H as [->|H].
  - apply no_new_glyph_refl.
  - by eapply setCursor_empty_no_new_glyph.
Qed.

Lemma setInteractionCursor_not_mouse i scope s :
  interactions_list scope !! i = Some s -> pointerType s <> "mouse" ->
  setInteractionCursor i scope = Some scope.
Proof.
  intros Hs Hne. apply String.eqb_neq in Hne. unfold setInteractionCursor.
  rewrite Hs, Hne. by destruct (interactable s).
Qed.

Lemma prepare_not_mouse i info scope scope' s :
  interactions_list scope !! i = Some s -> pointerType s <> "mouse" ->
  prepare i info scope = Some scope' -> no_new_glyph scope scope'.
Proof.
  intros Hs Hne. rewrite prepare_unfold, Hs.
  destruct (clear_previous s scope) as [scope1|] eqn:H1; [|done].
  pose proof (clear_previous_sessions _ _ _ H1) as (L1 & _).
  rewrite (setInteractionCursor_not_mouse i _ (prepared_session scope s info)).
  - intros [= <-]. by apply clear_previous_no_new_glyph in H1.
  - eapply with_session_lookup. rewrite L1. exact Hs.
  - done.
Qed.

Lemma startOnMove_not_mouse arg scope scope' s :
  interactions_list scope !! SignalArg.interaction arg = Some s ->
  pointerType s <> "mouse" ->
  startOnMove arg scope = Some scope' -> no_new_glyph scope scope'.
Proof.
  intros Hs Hne. unfold startOnMove. rewrite Hs.
  destruct (_ || _); [intros [= <-]; apply no_new_glyph_refl|].
  change (interactions_list (fire (BeforeStart (SignalArg.interaction arg)) scope))
    with (interactions_list scope).
  rewrite Hs.
  destruct (name_truthy _); [|intros [= <-]; apply no_new_glyph_fire].
  destruct (interactable s) as [t|]; [|intros [= <-]; apply no_new_glyph_fire].
  destruct (options _ !! _) as [o|]; [|done].
  assert (forall scope',
            interaction_stop (SignalArg.interaction arg)
              (fire (BeforeStart (SignalArg.interaction arg)) scope)
            = Some scope' -> no_new_glyph scope scope') as Hstop.
  { intros sc H.
    apply interaction_stop_Some_inv in H as (scope1 & s1 & H1 & _ & ->).
    rewrite clearCursorOnStop_unfold in H1.
    change (interactions_list
              (fire (BeforeStart (SignalArg.interaction arg)) scope))
      with (interactions_list scope) in H1.
    rewrite Hs in H1. apply clear_previous_no_new_glyph in H1. exact H1. }
  destruct (manualStart o); [apply Hstop|].
  destruct (withinInteractionLimit _ _ _ _) as [[|]|]; [|apply Hstop|done].
  cbn [negb]. unfold interaction_start.
  change (interactions_list (fire (BeforeStart (SignalArg.interaction arg)) scope))
    with (interactions_list scope).
  rewrite Hs.
  erewrite setInteractionCursor_not_mouse;
    [|by eapply with_session_lookup|done].
  intros [= <-]. exact (no_new_glyph_refl scope).
Qed.

(** Only mouse pointers set cursors: a notification about a session whose
    pointer type is not ['mouse'] gives no element a glyph it did not have
    and records no new cursor element; it can only clear. *)
Theorem handle_not_mouse_sets_no_cursor n scope scope' i s :
  notification_session n = Some i ->
  interactions_list scope !! i = Some s ->
  pointerType s <> "mouse" ->
  handle n scope = Some scope' ->
  no_new_glyph scope scope'.
Proof.
  intros Hn Hs Hne. destruct n as [arg|arg|j|v]; simpl in *; [| | |done];
    injection Hn as <-.
  - unfold prepareOnDown. rewrite Hs.
    destruct (interacting s); [intros [= <-]; apply no_new_glyph_refl|].
    destruct (getActionInfo _ _ _ _ _) as [info|]; [|done].
    by apply (prepare_not_mouse _ _ _ _ s).
  - unfold onMove, prepareOnMove. rewrite Hs.
    apply String.eqb_neq in Hne as Hneb. rewrite Hneb. cbn [negb orb].
    by apply (startOnMove_not_mouse _ _ _ s).
  - rewrite clearCursorOnStop_unfold, Hs. apply clear_previous_no_new_glyph.
Qed.

Lemma handle_not_mouse_sets_no_cursor_witness :
  exists scope',
    handle (Down (arg_of 0 (Elem 1 NotAnElement))) scope_touch_pressed
    = Some scope' /\
    no_new_glyph scope_touch_pressed scope'.
Proof.
  eexists. split; [reflexivity|].
  by apply (handle_not_mouse_sets_no_cursor
              (Down (arg_of 0 (Elem 1 NotAnElement))) scope_touch_pressed _ 0
              (mkSession "touch" true true false (mkAction None None)
                         None None None)).
Defined.

(** [setCursor] is idempotent: the same call again changes nothing. *)
Theorem setCursor_idempotent elem cursor scope scope' :
  setCursor elem cursor scope = Some scope' ->
  setCursor elem cursor scope' = Some scope'.
Proof.
  unfold setCursor. destruct elem as [e|]; [|done].
  intros [= <-]. simpl. f_equal. unfold with_autoStart, with_style; simpl.
  f_equal. apply map_eq. intros x.
  destruct (string_truthy cursor).
  - destruct (decide (x = e)) as [->|Hne];
      [by rewrite !lookup_insert_eq|rewrite !(lookup_insert_ne _ e x) by done].
    destruct (decide (x = documentElement scope e)) as [->|Hnr];
      [by rewrite !lookup_insert_eq|by rewrite !lookup_insert_ne by done].
  - destruct (decide (x = e)) as [->|Hne];
      [by rewrite !lookup_insert_eq|rewrite !(lookup_insert_ne _ e x) by done].
    destruct (decide (x = documentElement scope e)) as [->|Hnr];
      [by rewrite !lookup_insert_eq|by rewrite !lookup_insert_ne by done].
Qed.

Lemma setCursor_idempotent_witness :
  exists scope',
    setCursor (Some 2) "move" scope_prepared_drag = Some scope' /\
    setCursor (Some 2) "move" scope' = Some scope'.
Proof.
  eexists. split; [reflexivity|].
  by apply (setCursor_idempotent (Some 2) "move" scope_prepared_drag).
Defined.

(** * A global cap that is not positive *)

Lemma within_never_true_nonpositive target el action scope :
  num_le0 (AutoStart.maxInteractions (autoStart scope)) ->
  withinInteractionLimit target el action scope <> Some true.
Proof.
  intros Hle Hw. apply within_Some_true_inv in Hw as (o & c & _ & _ & Hpos & _).
  by rewrite (num_le0_not_gt0 _ Hle) in Hpos.
Qed.

Lemma getActionInfo_none_nonpositive
    interaction pointer event eventTarget scope info :
  num_le0 (AutoStart.maxInteractions (autoStart scope)) ->
  getActionInfo interaction pointer event eventTarget scope = Some info ->
  info = ActionInfo.none.
Proof.
  intros Hle H. unfold getActionInfo in H.
  apply getActionInfo_from_sound
    in H as [->|(a & t & e & _ & _ & _ & _ & Hval & _)]; [done|].
  apply validateAction_Some in Hval as (_ & o & _ & _ & _ & Hw).
  by apply within_never_true_nonpositive in Hw.
Qed.

(** [maxInteractions] with a number that is not positive switches the plugin
    off ("newValue <= 0 means no interactions", line 86): from then on no
    candidate is within the limits, the resolver finds nothing for any
    event, a pointer-down leaves its idle session without target and
    prepared action, and no notification makes an idle session active. *)
Theorem maxInteractions_nonpositive_disables n scope :
  num_le0 n ->
  let scope' := snd (maxInteractions (VNumber n) scope) in
  (forall target el action,
     withinInteractionLimit target el action scope' <> Some true) /\
  (forall interaction pointer event eventTarget info,
     getActionInfo interaction pointer event eventTarget scope' = Some info ->
     info = ActionInfo.none) /\
  (forall arg s scope'',
     interactions_list scope' !! SignalArg.interaction arg = Some s ->
     interacting s = false ->
     prepareOnDown arg scope' = Some scope'' ->
     exists s',
       interactions_list scope'' !! SignalArg.interaction arg = Some s' /\
       interactable s' = None /\ element s' = None /\
       name (prepared s') = None) /\
  (forall x scope'' j sj sj',
     handle x scope' = Some scope'' ->
     interactions_list scope' !! j = Some sj ->
     interactions_list scope'' !! j = Some sj' ->
     interacting sj = false -> interacting sj' = false).
Proof.
  intros Hle scope'.
  assert (num_le0 (AutoStart.maxInteractions (autoStart scope'))) as Hcap
    by exact Hle.
  split; [|split; [|split]].
  - intros. by apply within_never_true_nonpositive.
  - intros. by eapply getActionInfo_none_nonpositive.
  - intros arg s scope'' Hs Hidle. unfold prepareOnDown. rewrite Hs, Hidle.
    destruct (getActionInfo _ _ _ _ _) as [info|] eqn:Hinfo; [|done].
    apply getActionInfo_none_nonpositive in Hinfo as ->; [|done].
    intros H. apply prepare_sessions in H as (s0 & Hs0 & _ & Hs' & _).
    eexists. split; [exact Hs'|]. done.
  - intros x scope'' j sj sj' Hx Hj Hj' Hidle.
    destruct (interacting sj') eqn:Hact; [|done]. exfalso.
    destruct (activation_inv x scope' scope'' j sj sj' Hx Hj Hj' Hidle Hact)
      as (_ & _ & _ & _ & _ & t & o & _ & _ & _ & Hw & _).
    by apply within_never_true_nonpositive in Hw.
Qed.

(** After [maxInteractions(0)] the resolver finds nothing. *)
Lemma maxInteractions_nonpositive_disables_witness :
  getActionInfo (idle_session "mouse") 0 0 child_of_parent
    (snd (maxInteractions (VNumber (Finite 0)) scope_manual_child))
  = Some ActionInfo.none.
Proof.
  destruct (getActionInfo (idle_session "mouse") 0 0 child_of_parent
              (snd (maxInteractions (VNumber (Finite 0)) scope_manual_child)))
    as [info|] eqn:E; [|done].
  f_equal.
  refine (proj1 (proj2 (maxInteractions_nonpositive_disables
                          (Finite 0) scope_manual_child _)) _ _ _ _ _ E).
  simpl. lra.
Defined.

(** * The cursor of a prepared action *)

Lemma clear_previous_frame s scope scope1 :
  clear_previous s scope = Some scope1 ->
  interactions_list scope1 = interactions_list scope /\
  interactables_get scope1 = interactables_get scope /\
  actions_getCursor scope1 = actions_getCursor scope /\
  documentElement scope1 = documentElement scope.
Proof.
  intros H. apply clear_previous_cases in H as [->|H]; [done|].
  apply setCursor_Some_inv in H as (e & _ & H1 & H2 & _ & H3 & _ & H4 & _).
  done.
Qed.

(** Preparing a mouse session for an action of a target that styles cursors
    shows the action's cursor: the glyph is the answer of the target's
    [cursorChecker] when it has one and of the action's [getCursor]
    otherwise; the element and its document element carry it, and the
    element is recorded as cursor element exactly when the glyph is not
    empty. *)
Theorem prepare_shows_cursor i scope s a t e o scope' :
  interactions_list scope !! i = Some s ->
  pointerType s = "mouse" ->
  styleCursor (interactables_get scope t) = true ->
  name_truthy (name a) = true ->
  options (interactables_get scope t) !! prop_key (name a) = Some o ->
  prepare i (ActionInfo.mk (Some a) (Some t) (Some e)) scope = Some scope' ->
  exists glyph,
    match cursorChecker o with
    | Some checker =>
        glyph = checker (copyAction (prepared s) a) t (Some e) (_interacting s)
    | None =>
        exists getCursor,
          actions_getCursor scope !! prop_key (name a) = Some getCursor /\
          glyph = getCursor (copyAction (prepared s) a)
    end /\
    cursor_of scope' e = glyph /\
    cursor_of scope' (documentElement scope e) = glyph /\
    AutoStart.cursorElement (autoStart scope')
      = (if string_truthy glyph then Some e else None).
Proof.
  intros Hs Hmouse Hstyle Hname Ho. rewrite prepare_unfold, Hs.
  destruct (clear_previous s scope) as [scope1|] eqn:H1; [|done].
  apply clear_previous_frame in H1 as (L1 & R1 & A1 & D1).
  unfold setInteractionCursor.
  erewrite with_session_lookup by (rewrite L1; exact Hs).
  cbn [prepared_session interactable pointerType prepared element _interacting
       ActionInfo.interactable ActionInfo.action ActionInfo.element default
       copyAction name].
  unfold id.
  change (interactables_get (with_session i _ scope1))
    with (interactables_get scope1).
  change (actions_getCursor (with_session i _ scope1))
    with (actions_getCursor scope1).
  rewrite R1, A1, Hmouse, Hstyle, Hname, Ho. cbn [String.eqb andb negb].
  assert (forall glyph sc,
            setCursor (Some e) glyph
              (with_session i
                 (prepared_session scope s
                    (ActionInfo.mk (Some a) (Some t) (Some e))) scope1)
            = Some sc ->
            cursor_of (fire (Prepared i) sc) e = glyph /\
            cursor_of (fire (Prepared i) sc) (documentElement scope e) = glyph /\
            AutoStart.cursorElement (autoStart (fire (Prepared i) sc))
              = (if string_truthy glyph then Some e else None)) as Hset.
  { intros glyph sc H.
    pose proof (setCursor_Some_inv _ _ _ _ H)
      as (e' & [= <-] & _ & _ & _ & _ & _ & _ & _ & Hce).
    pose proof (setCursor_styles _ _ _ _ H) as (He & Hroot & _).
    change (documentElement (with_session i
              (prepared_session scope s
                 (ActionInfo.mk (Some a) (Some t) (Some e))) scope1))
      with (documentElement scope1) in Hroot.
    rewrite D1 in Hroot. by repeat split. }
  destruct (cursorChecker o) as [checker|].
  - destruct (setCursor _ _ _) as [sc|] eqn:Hsc; [|done]. intros [= <-].
    eexists. split; [reflexivity|]. by apply Hset.
  - destruct (actions_getCursor scope !! _) as [getCursor|] eqn:Hg; [|done].
    destruct (setCursor _ _ _) as [sc|] eqn:Hsc; [|done]. intros [= <-].
    eexists. split; [by exists getCursor|]. by apply Hset.
Qed.

(** Pointer-down on element 2 of target 8 shows the drag cursor there. *)
Lemma prepare_shows_cursor_witness :
  exists scope' glyph,
    prepare 0 (ActionInfo.mk (Some drag) (Some 8) (Some 2)) scope_manual_child
    = Some scope' /\
    glyph = "move" /\ cursor_of scope' 2 = glyph.
Proof.
  eexists. 
  destruct (prepare_shows_cursor 0 scope_manual_child (idle_session "mouse")
              drag 8 2 (options_with Infinity (Finite 1) false) _
              eq_refl eq_refl eq_refl eq_refl eq_refl eq_refl)
    as (glyph & Hg & He & _).
  exists glyph. split; [reflexivity|]. split; [|exact He].
  simpl in Hg. destruct Hg as (g & Hlook & ->).
  vm_compute in Hlook. by injection Hlook as <-.
Defined.
